(** * Table element classes of python-docx ([docx/oxml/table.py])

    A shallow embedding of the custom element classes for tables
    ([CT_Row], [CT_Tbl], [CT_TblGrid], [CT_TblLayoutType], [CT_TblPr],
    [CT_TblWidth], [CT_Tc], [CT_TcPr], [CT_VMerge]) over a functional
    model of the lxml element tree, followed by the properties the
    specification states about them. *)

From Stdlib Require Import ZArith String Ascii List DecimalString DecimalPos DecimalZ.
From stdpp Require Import base option list gmap strings.

Local Open Scope string_scope.
Local Open Scope list_scope.

(** ** Python exceptions and fallible computations *)

Inductive exn : Type :=
| InvalidXmlError   (* a required attribute or child is missing *)
| AttributeError    (* attribute access on [None] or on a foreign class *)
| ValueError.       (* [list.index] miss, [int()] of a non-numeral *)

Inductive result (A : Type) : Type :=
| Ok (a : A)
| Raise (e : exn).
Arguments Ok {A} a.
Arguments Raise {A} e.

(** [result] is a monad; stdpp's [x ← m; k] notation sequences calls that
    may raise. *)
#[global] Instance result_ret : MRet result := fun A a => Ok a.
#[global] Instance result_bind : MBind result := fun A B k m =>
  match m with
  | Ok a => k a
  | Raise e => Raise e
  end.

(** ** The element tree

    An lxml element is a mutable object: it has an identity ([addr], what
    Python's [is] and the default [==] compare), a tag, a dictionary of
    attributes holding strings, and an ordered sequence of child elements.
    Tags and attribute names are written namespace-prefixed, as table.py
    writes them (['w:tcW'], ['w:type']).  A mutation of an element is
    modelled by the updated tree. *)

#[local] Unset Elimination Schemes.
Inductive element : Type :=
  Element { addr : nat;
            tag : string;
            attrib : gmap string string;
            children : list element }.
#[local] Set Elimination Schemes.

Module etree.

(** [OxmlElement(nsptag)]: a new element without attributes or children;
    [a] is the identity of the new object. *)
Definition OxmlElement (a : nat) (nsptag : string) : element :=
  Element a nsptag ∅ [].

(** [elm.get(name)] *)
Definition get (self : element) (name : string) : option string :=
  attrib self !! name.

(** [elm.set(name, value)] *)
Definition set (self : element) (name value : string) : element :=
  Element (addr self) (tag self) (<[name := value]> (attrib self)) (children self).

(** [del elm.attrib[name]], guarded by [name in elm.attrib] *)
Definition del_attr (self : element) (name : string) : element :=
  Element (addr self) (tag self) (delete name (attrib self)) (children self).

(** [elm[:] = new_children] *)
Definition set_children (self : element) (cs : list element) : element :=
  Element (addr self) (tag self) (attrib self) cs.

(** Position of the first element of [cs] tagged [t]. *)
Fixpoint find_pos (t : string) (cs : list element) : option nat :=
  match cs with
  | [] => None
  | c :: cs' => if String.eqb (tag c) t then Some 0%nat
                else S <$> find_pos t cs'
  end.

(** [elm.find(tag)]: the first child with that tag, or [None]. *)
Definition find (self : element) (t : string) : option element :=
  i ← find_pos t (children self); children self !! i.

(** [elm.findall(tag)]: the children with that tag, in document order. *)
Definition findall (self : element) (t : string) : list element :=
  List.filter (fun c => String.eqb (tag c) t) (children self).

(** [elm.append(child)] *)
Definition append (self : element) (child : element) : element :=
  set_children self (children self ++ [child]).

(** [elm.insert(i, child)] *)
Definition insert (self : element) (i : nat) (child : element) : element :=
  set_children self (take i (children self) ++ child :: drop i (children self)).

(** [elm.remove(child)]: the child is looked up by identity;
    [ValueError] when it is not a child of [elm]. *)
Fixpoint remove_addr (a : nat) (cs : list element) : option (list element) :=
  match cs with
  | [] => None
  | c :: cs' => if Nat.eqb (addr c) a then Some cs'
                else cons c <$> remove_addr a cs'
  end.

Definition remove (self : element) (child : element) : result element :=
  match remove_addr (addr child) (children self) with
  | Some cs => Ok (set_children self cs)
  | None => Raise ValueError
  end.

(** Aliasing: [child = elm.find(t)] followed by a mutation [f] of
    [child] changes the first [t]-child of [elm] in place. *)
Fixpoint modify_first (t : string) (f : element -> element) (cs : list element)
  : list element :=
  match cs with
  | [] => []
  | c :: cs' => if String.eqb (tag c) t then f c :: cs'
                else c :: modify_first t f cs'
  end.

Definition modify_child (self : element) (t : string) (f : element -> element)
  : element :=
  set_children self (modify_first t f (children self)).

(** Identities of all the objects of a tree, in document order. *)
Fixpoint addrs (e : element) : list nat :=
  match e with
  | Element a _ _ cs => a :: flat_map addrs cs
  end.

(** The elements of a tree: the root and everything below it, in
    document order. *)
Fixpoint descendants (e : element) : list element :=
  match e with
  | Element _ _ _ cs => e :: flat_map descendants cs
  end.

(** The first result of a list of searches. *)
Fixpoint first_Some {A : Type} (l : list (option A)) : option A :=
  match l with
  | [] => None
  | Some x :: _ => Some x
  | None :: l' => first_Some l'
  end.

(** [elm.getparent()], for an element of the tree [doc] given by its
    identity: the element one of whose children it is, [None] for the
    root and for an object that is not in the tree.  lxml keeps the
    parent in the element; here it is found by a search of the tree. *)
Fixpoint getparent (doc : element) (a : nat) : option element :=
  match doc with
  | Element _ _ _ cs =>
      if existsb (fun c => Nat.eqb (addr c) a) cs then Some doc
      else first_Some (List.map (fun c => getparent c a) cs)
  end.

(** [lst.index(x)] on a list of objects: the first position holding the
    object [x] itself, [ValueError] when there is none. *)
Fixpoint index_from (n : nat) (a : nat) (l : list element) : result nat :=
  match l with
  | [] => Raise ValueError
  | c :: l' => if Nat.eqb (addr c) a then Ok n else index_from (S n) a l'
  end.

Definition index (l : list element) (x : element) : result nat :=
  index_from 0 (addr x) l.

End etree.

(** ** Collaborators of table.py that live in other modules of the package *)

Module xmlchemy.

(** Modelled from the spec: [BaseOxmlElement.first_child_found_in] of
    docx/oxml/xmlchemy.py, the lookup half of the
    ordered-insertion-before-first-successor primitive.  The successor
    tags are tried in their declared order; the result is the position
    of the first child carrying the first tag that has one. *)
Fixpoint first_child_found_in (self : element) (tagnames : list string)
  : option nat :=
  match tagnames with
  | [] => None
  | t :: ts => match etree.find_pos t (children self) with
               | Some i => Some i
               | None => first_child_found_in self ts
               end
  end.

(** Modelled from the spec: [BaseOxmlElement.insert_element_before] of
    docx/oxml/xmlchemy.py: the new child goes immediately before the
    first existing successor, and last when there is none. *)
Definition insert_element_before (self elm : element) (tagnames : list string)
  : element :=
  match first_child_found_in self tagnames with
  | Some i => etree.insert self i elm
  | None => etree.append self elm
  end.

(** Modelled from the spec: the [ZeroOrOne] child descriptor of
    docx/oxml/xmlchemy.py, which gives the element class a getter
    (the child or [None]) and the methods [_new_x], [_insert_x],
    [_add_x], [get_or_add_x] and [_remove_x] for a child tagged [t] with
    the declared [successors]. *)
Section ZeroOrOne.
Variables (t : string) (successors : list string).

(** Modelled from the spec: the getter of [ZeroOrOne], the first child
    tagged [t] or [None]. *)
Definition ZeroOrOne_get (self : element) : option element :=
  etree.find self t.

(** Modelled from the spec: [_new_x] of [ZeroOrOne], a new empty element
    tagged [t]; [a] is its identity. *)
Definition ZeroOrOne_new (a : nat) : element := etree.OxmlElement a t.

(** Modelled from the spec: [_insert_x] of [ZeroOrOne], the insertion at
    the schema position that the successors give. *)
Definition ZeroOrOne_insert (self child : element) : element :=
  insert_element_before self child successors.

(** Modelled from the spec: [_add_x] of [ZeroOrOne], which makes a new
    child and inserts it. *)
Definition ZeroOrOne_add (a : nat) (self : element) : element :=
  ZeroOrOne_insert self (ZeroOrOne_new a).

(** Modelled from the spec: [get_or_add_x] of [ZeroOrOne], the lazy
    creation of an optional child on first write. *)
Definition ZeroOrOne_get_or_add (a : nat) (self : element) : element :=
  match ZeroOrOne_get self with
  | None => ZeroOrOne_add a self
  | Some _ => self
  end.

(** Modelled from the spec: [_remove_x] of [ZeroOrOne], the removal of
    every child tagged [t]. *)
Definition ZeroOrOne_remove (self : element) : element :=
  etree.set_children self
    (List.filter (fun c => negb (String.eqb (tag c) t)) (children self)).
End ZeroOrOne.

(** Modelled from the spec: the [OneAndOnlyOne] child descriptor of
    docx/oxml/xmlchemy.py; reading a required child that is missing is
    a structural-validity error. *)
Definition OneAndOnlyOne_get (t : string) (self : element) : result element :=
  match etree.find self t with
  | Some child => Ok child
  | None => Raise InvalidXmlError
  end.

(** Modelled from the spec: the [x_lst] property that the [ZeroOrMore]
    and [OneOrMore] child descriptors of docx/oxml/xmlchemy.py give the
    element class: the children of that kind in document order. *)
Definition ZeroOrMore_lst (t : string) (self : element) : list element :=
  etree.findall self t.

(** Modelled from the spec: the [OptionalAttribute] descriptor of
    docx/oxml/xmlchemy.py.  Reading yields the declared default when
    the attribute is absent, and the converted attribute text
    otherwise; writing stores the text form of the value. *)
Definition OptionalAttribute_get {A : Type} (name : string)
    (from_xml : string -> result A) (default : option A) (self : element)
  : result (option A) :=
  match etree.get self name with
  | None => Ok default
  | Some str_value => v ← from_xml str_value; Ok (Some v)
  end.

(** Modelled from the spec: the setter of [OptionalAttribute], for a
    value that is not [None]. *)
Definition OptionalAttribute_set {A : Type} (name : string)
    (to_xml : A -> string) (self : element) (value : A) : element :=
  etree.set self name (to_xml value).

(** Modelled from the spec: the [RequiredAttribute] descriptor of
    docx/oxml/xmlchemy.py.  Reading a missing attribute is a
    structural-validity error. *)
Definition RequiredAttribute_get {A : Type} (name : string)
    (from_xml : string -> result A) (self : element) : result A :=
  match etree.get self name with
  | None => Raise InvalidXmlError
  | Some str_value => from_xml str_value
  end.

(** Modelled from the spec: the setter of [RequiredAttribute]. *)
Definition RequiredAttribute_set {A : Type} (name : string)
    (to_xml : A -> string) (self : element) (value : A) : element :=
  etree.set self name (to_xml value).

End xmlchemy.

Module simpletypes.

(** Modelled from the spec: [to_xml] of the integer simple types
    [XsdInt] and [ST_DecimalNumber] of docx/oxml/simpletypes.py.  The
    attribute text is the decimal numeral that [str] prints. *)
Definition int_to_xml (value : Z) : string :=
  NilZero.string_of_int (Z.to_int value).

(** Modelled from the spec: [from_xml] of the integer simple types;
    [int] of a text that is not a decimal numeral raises [ValueError]. *)
Definition int_from_xml (str_value : string) : result Z :=
  match NilZero.int_of_string str_value with
  | Some d => Ok (Z.of_int d)
  | None => Raise ValueError
  end.

(** Modelled from the spec: [to_xml] of the restricted string
    enumerations [ST_Merge], [ST_TblLayoutType] and [ST_TblWidth] of
    docx/oxml/simpletypes.py; the value is the attribute text itself. *)
Definition str_to_xml (value : string) : string := value.

(** Modelled from the spec: [from_xml] of the string enumerations. *)
Definition str_from_xml (str_value : string) : result string := Ok str_value.

(** Modelled from the spec: [ST_Merge.CONTINUE], the state 'continue'. *)
Definition ST_Merge_CONTINUE : string := "continue".

(** Modelled from the spec: [ST_Merge.RESTART], the state 'restart'. *)
Definition ST_Merge_RESTART : string := "restart".

End simpletypes.

Module shared.

(** Modelled from the spec: the [Length] value types of docx/shared.py.
    A length is an integer count of English Metric Units (914400 to the
    inch, 12700 to the point); the document unit, the twip, is a
    twentieth of a point, 635 EMU. *)
Definition _EMUS_PER_TWIP : Z := 635.

(** Modelled from the spec: [Emu(emu)], a length from a count of EMU. *)
Definition Emu (emu : Z) : Z := emu.

(** Modelled from the spec: [Twips(twips)], the construction of a length
    from a raw integer in the document unit. *)
Definition Twips (twips : Z) : Z := (twips * _EMUS_PER_TWIP)%Z.

(** Modelled from the spec: the [twips] property of a length, the
    conversion to the integer document unit: the nearest whole number of
    twips (635 being odd, there are no ties). *)
Definition twips (self : Z) : Z :=
  ((2 * self + _EMUS_PER_TWIP) / (2 * _EMUS_PER_TWIP))%Z.

End shared.

Module CT_DecimalNumber.

(** Modelled from the spec: [CT_DecimalNumber.val] of docx/oxml/shared.py,
    the class of the grid-span child, whose value is its required
    integer attribute [w:val]. *)
Definition val (self : element) : result Z :=
  xmlchemy.RequiredAttribute_get "w:val" simpletypes.int_from_xml self.

End CT_DecimalNumber.

Module CT_String.

(** Modelled from the spec: [CT_String.val] of docx/oxml/shared.py, the
    class of the style-reference child, whose value is its required
    string attribute [w:val]. *)
Definition val (self : element) : result string :=
  xmlchemy.RequiredAttribute_get "w:val" simpletypes.str_from_xml self.

(** Modelled from the spec: the setter of [CT_String.val]. *)
Definition set_val (self : element) (value : string) : element :=
  xmlchemy.RequiredAttribute_set "w:val" simpletypes.str_to_xml self value.

End CT_String.

(** ** The element classes of table.py *)

(** [<w:tblW>] and [<w:tcW>]: a table-related width. *)
Module CT_TblWidth.

Definition w (self : element) : result Z :=
  xmlchemy.RequiredAttribute_get "w:w" simpletypes.int_from_xml self.

Definition set_w (self : element) (value : Z) : element :=
  xmlchemy.RequiredAttribute_set "w:w" simpletypes.int_to_xml self value.

Definition type (self : element) : result string :=
  xmlchemy.RequiredAttribute_get "w:type" simpletypes.str_from_xml self.

Definition set_type (self : element) (value : string) : element :=
  xmlchemy.RequiredAttribute_set "w:type" simpletypes.str_to_xml self value.

(** The EMU length value represented by the combined [w:w] and [w:type]
    attributes. *)
Definition width (self : element) : result (option Z) :=
  ty ← type self;
  if negb (String.eqb ty "dxa") then Ok None
  else v ← w self; Ok (Some (shared.Twips v)).

Definition set_width (self : element) (value : Z) : element :=
  let self := set_type self "dxa" in
  set_w self (shared.twips (shared.Emu value)).

End CT_TblWidth.

(** [<w:vMerge>]: vertical merging behavior of a cell. *)
Module CT_VMerge.

Definition val (self : element) : result (option string) :=
  xmlchemy.OptionalAttribute_get "w:val" simpletypes.str_from_xml
    (Some simpletypes.ST_Merge_CONTINUE) self.

End CT_VMerge.

(** [<w:tcPr>]: table cell properties. *)
Module CT_TcPr.

Definition _tag_seq : list string :=
  [ "w:cnfStyle"; "w:tcW"; "w:gridSpan"; "w:hMerge"; "w:vMerge";
    "w:tcBorders"; "w:shd"; "w:noWrap"; "w:tcMar"; "w:textDirection";
    "w:tcFitText"; "w:vAlign"; "w:hideMark"; "w:headers"; "w:cellIns";
    "w:cellDel"; "w:cellMerge"; "w:tcPrChange" ].

Definition tcW_successors : list string := drop 2 _tag_seq.
Definition gridSpan_successors : list string := drop 3 _tag_seq.
Definition vMerge_successors : list string := drop 5 _tag_seq.

Definition tcW : element -> option element :=
  xmlchemy.ZeroOrOne_get "w:tcW".
Definition _add_tcW : nat -> element -> element :=
  xmlchemy.ZeroOrOne_add "w:tcW" tcW_successors.
Definition get_or_add_tcW : nat -> element -> element :=
  xmlchemy.ZeroOrOne_get_or_add "w:tcW" tcW_successors.

Definition gridSpan : element -> option element :=
  xmlchemy.ZeroOrOne_get "w:gridSpan".
Definition _add_gridSpan : nat -> element -> element :=
  xmlchemy.ZeroOrOne_add "w:gridSpan" gridSpan_successors.
Definition get_or_add_gridSpan : nat -> element -> element :=
  xmlchemy.ZeroOrOne_get_or_add "w:gridSpan" gridSpan_successors.

Definition vMerge : element -> option element :=
  xmlchemy.ZeroOrOne_get "w:vMerge".
Definition _add_vMerge : nat -> element -> element :=
  xmlchemy.ZeroOrOne_add "w:vMerge" vMerge_successors.
Definition get_or_add_vMerge : nat -> element -> element :=
  xmlchemy.ZeroOrOne_get_or_add "w:vMerge" vMerge_successors.

(** The number of columns this cell spans; it defaults to 1. *)
Definition grid_span (self : element) : result Z :=
  match gridSpan self with
  | None => Ok 1%Z
  | Some gridSpan => CT_DecimalNumber.val gridSpan
  end.

(** The value of ./w:vMerge/@val, or [None] if the w:vMerge element is
    not present. *)
Definition vMerge_val (self : element) : result (option string) :=
  match vMerge self with
  | None => Ok None
  | Some vMerge => CT_VMerge.val vMerge
  end.

(** The EMU length value of the [<w:tcW>] child, or [None] if it is not
    present or its type is not 'dxa'. *)
Definition width (self : element) : result (option Z) :=
  match tcW self with
  | None => Ok None
  | Some tcW => CT_TblWidth.width tcW
  end.

(** [a] is the identity of the [<w:tcW>] added when there is none. *)
Definition set_width (a : nat) (self : element) (value : Z) : element :=
  let self := get_or_add_tcW a self in
  etree.modify_child self "w:tcW" (fun tcW => CT_TblWidth.set_width tcW value).

End CT_TcPr.

(** [<w:tblLayout>]: whether column widths are fixed or automatically
    adjusted. *)
Module CT_TblLayoutType.

Definition type (self : element) : result (option string) :=
  xmlchemy.OptionalAttribute_get "w:type" simpletypes.str_from_xml None self.

Definition set_type (self : element) (value : string) : element :=
  xmlchemy.OptionalAttribute_set "w:type" simpletypes.str_to_xml self value.

End CT_TblLayoutType.

(** [<w:tblPr>]: table properties. *)
Module CT_TblPr.

Definition tblStyle_successors : list string :=
  [ "w:tblpPr"; "w:tblOverlap"; "w:bidiVisual"; "w:tblStyleRowBandSize";
    "w:tblStyleColBandSize"; "w:tblW"; "w:jc"; "w:tblCellSpacing";
    "w:tblInd"; "w:tblBorders"; "w:shd"; "w:tblLayout"; "w:tblCellMar";
    "w:tblLook"; "w:tblCaption"; "w:tblDescription"; "w:tblPrChange" ].

Definition tblLayout_successors : list string :=
  [ "w:tblLayout"; "w:tblCellMar"; "w:tblLook"; "w:tblCaption";
    "w:tblDescription"; "w:tblPrChange" ].

Definition tblStyle : element -> option element :=
  xmlchemy.ZeroOrOne_get "w:tblStyle".

Definition tblLayout : element -> option element :=
  xmlchemy.ZeroOrOne_get "w:tblLayout".
Definition get_or_add_tblLayout : nat -> element -> element :=
  xmlchemy.ZeroOrOne_get_or_add "w:tblLayout" tblLayout_successors.

(** [False] if there is a [<w:tblLayout>] child with [w:type] set to
    'fixed', otherwise [True]. *)
Definition autofit (self : element) : result bool :=
  match tblLayout self with
  | None => Ok true
  | Some tblLayout =>
      ty ← CT_TblLayoutType.type tblLayout;
      Ok (if bool_decide (ty = Some "fixed") then false else true)
  end.

(** [a] is the identity of the [<w:tblLayout>] added when there is
    none. *)
Definition set_autofit (a : nat) (self : element) (value : bool) : element :=
  let self := get_or_add_tblLayout a self in
  etree.modify_child self "w:tblLayout"
    (fun tblLayout =>
       CT_TblLayoutType.set_type tblLayout (if value then "autofit" else "fixed")).

Definition _remove_tblStyle : element -> element :=
  xmlchemy.ZeroOrOne_remove "w:tblStyle".

(** [_add_tblStyle(val=value)]: the new child gets its attribute before
    it is inserted; [a] is its identity. *)
Definition _add_tblStyle (a : nat) (self : element) (val : string) : element :=
  let child := xmlchemy.ZeroOrOne_new "w:tblStyle" a in
  let child := CT_String.set_val child val in
  xmlchemy.ZeroOrOne_insert tblStyle_successors self child.

(** The value of the [val] attribute of the [<w:tblStyle>] child, or
    [None] if not present. *)
Definition style (self : element) : result (option string) :=
  match tblStyle self with
  | None => Ok None
  | Some tblStyle => v ← CT_String.val tblStyle; Ok (Some v)
  end.

(** [a] is the identity of the [<w:tblStyle>] that is added. *)
Definition set_style (a : nat) (self : element) (value : option string) : element :=
  let self := _remove_tblStyle self in
  match value with
  | None => self
  | Some value => _add_tblStyle a self value
  end.

End CT_TblPr.

(** [<w:tblGrid>]: holds the [<w:gridCol>] elements. *)
Module CT_TblGrid.
Definition gridCol_lst : element -> list element :=
  xmlchemy.ZeroOrMore_lst "w:gridCol".
End CT_TblGrid.

(** [<w:gridCol>]: a table column. *)
Module CT_TblGridCol.

(** The index of this [<w:gridCol>] element within its parent
    [<w:tblGrid>] element.  [doc] is the tree the column lives in;
    [gridCol_lst] is the list that [CT_TblGrid] declares, and [None] or
    an element of another class has none. *)
Definition gridCol_idx (doc : element) (self : element) : result nat :=
  match etree.getparent doc (addr self) with
  | None => Raise AttributeError
  | Some parent =>
      if String.eqb (tag parent) "w:tblGrid"
      then etree.index (CT_TblGrid.gridCol_lst parent) self
      else Raise AttributeError
  end.

End CT_TblGridCol.

(** [<w:tr>] *)
Module CT_Row.

Definition tc_lst : element -> list element :=
  xmlchemy.ZeroOrMore_lst "w:tc".

(** The index of this [<w:tr>] element within its parent [<w:tbl>]
    element.  [doc] is the tree the row lives in.  [getparent()] of a
    row without a parent is [None], which has no [tr_lst]; [tr_lst] is
    the list that [CT_Tbl] declares with [ZeroOrMore('w:tr')], and an
    element of another class has none. *)
Definition tr_idx (doc : element) (self : element) : result nat :=
  match etree.getparent doc (addr self) with
  | None => Raise AttributeError
  | Some parent =>
      if String.eqb (tag parent) "w:tbl"
      then etree.index (xmlchemy.ZeroOrMore_lst "w:tr" parent) self
      else Raise AttributeError
  end.

End CT_Row.

(** The generator object that [CT_Tbl.iter_tcs] returns.  Its state is
    the position of the two nested loops: the cells of the current row
    still to be yielded and the rows still to be visited.  [next] is one
    call of Python's [next()]: [None] is [StopIteration]. *)
Module generator.

Record t : Type := Gen { pending : list element; rows_left : list element }.

Section Next.
Variable tc_lst : element -> list element.

Fixpoint next_from (rows : list element) (cells : list element)
  : option (element * t) :=
  match cells with
  | tc :: cells' => Some (tc, Gen cells' rows)
  | [] => match rows with
          | [] => None
          | tr :: rows' => next_from rows' (tc_lst tr)
          end
  end.

Definition next (g : t) : option (element * t) :=
  next_from (rows_left g) (pending g).

(** [list(g)], with a bound on the number of [next()] calls. *)
Fixpoint to_list (fuel : nat) (g : t) : option (list element) :=
  match fuel with
  | O => None
  | S fuel' => match next g with
               | None => Some []
               | Some (tc, g') => cons tc <$> to_list fuel' g'
               end
  end.

(** The generator after [n] values have been taken from it. *)
Fixpoint advance (n : nat) (g : t) : t :=
  match n with
  | O => g
  | S n' => match next g with
            | None => g
            | Some (_, g') => advance n' g'
            end
  end.
End Next.

End generator.

(** [<w:tbl>] *)
Module CT_Tbl.

Definition tblPr : element -> result element :=
  xmlchemy.OneAndOnlyOne_get "w:tblPr".
Definition tblGrid : element -> result element :=
  xmlchemy.OneAndOnlyOne_get "w:tblGrid".
Definition tr_lst : element -> list element :=
  xmlchemy.ZeroOrMore_lst "w:tr".

(** Generate each of the [w:tc] elements in this table, left to right
    and top to bottom. *)
Definition iter_tcs (self : element) : generator.t :=
  generator.Gen [] (tr_lst self).

(** [next()] and [list()] on the generator of [iter_tcs]. *)
Definition next : generator.t -> option (element * generator.t) :=
  generator.next CT_Row.tc_lst.

Definition to_list : nat -> generator.t -> option (list element) :=
  generator.to_list CT_Row.tc_lst.

Definition advance : nat -> generator.t -> generator.t :=
  generator.advance CT_Row.tc_lst.

(** The tree that [parse_xml] builds from the text of [_tbl_xml()]:
    a [<w:tbl>] holding a [<w:tblPr>] with the single child
    [<w:tblW w:type='auto' w:w='0'/>], and an empty [<w:tblGrid/>].
    The four new objects get the identities [a], [a+1], [a+2], [a+3]. *)
Definition _tbl_xml (a : nat) : element :=
  Element a "w:tbl" ∅
    [ Element (a + 1) "w:tblPr" ∅
        [ Element (a + 2) "w:tblW" (<["w:type" := "auto"]> (<["w:w" := "0"]> ∅)) [] ];
      Element (a + 3) "w:tblGrid" ∅ [] ].

Definition new (a : nat) : element := _tbl_xml a.

(** The number of grid columns in this table. *)
Definition col_count (self : element) : result nat :=
  tblGrid ← tblGrid self;
  Ok (length (CT_TblGrid.gridCol_lst tblGrid)).

End CT_Tbl.

(** [<w:tc>]: table cell. *)
Module CT_Tc.

Definition tcPr : element -> option element :=
  xmlchemy.ZeroOrOne_get "w:tcPr".
Definition p_lst : element -> list element :=
  xmlchemy.ZeroOrMore_lst "w:p".
Definition tbl_lst : element -> list element :=
  xmlchemy.ZeroOrMore_lst "w:tbl".

(** [tcPr] comes first if it appears, so [insert(0, ...)] is used
    rather than a list of successors. *)
Definition _insert_tcPr (self tcPr : element) : element :=
  etree.insert self 0 tcPr.

Definition _add_tcPr (a : nat) (self : element) : element :=
  _insert_tcPr self (xmlchemy.ZeroOrOne_new "w:tcPr" a).

Definition get_or_add_tcPr (a : nat) (self : element) : element :=
  match tcPr self with
  | None => _add_tcPr a self
  | Some _ => self
  end.

(** Remove all content child elements, preserving the [<w:tcPr>]
    element if present. *)
Definition clear_content (self : element) : element :=
  let new_children := [] in
  let new_children :=
    match tcPr self with
    | Some tcPr => new_children ++ [tcPr]
    | None => new_children
    end in
  etree.set_children self new_children.

(** The number of columns this cell spans; it defaults to 1. *)
Definition grid_span (self : element) : result Z :=
  match tcPr self with
  | None => Ok 1%Z
  | Some tcPr => CT_TcPr.grid_span tcPr
  end.

(** The tree that [parse_xml] builds for a new cell: a [<w:tc>] holding
    one empty [<w:p/>].  The new objects get the identities [a] and
    [a+1]. *)
Definition new (a : nat) : element :=
  Element a "w:tc" ∅ [ Element (a + 1) "w:p" ∅ [] ].

(** The value of ./w:tcPr/w:vMerge/@val, or [None] if the w:vMerge
    element is not present. *)
Definition vMerge (self : element) : result (option string) :=
  match tcPr self with
  | None => Ok None
  | Some tcPr => CT_TcPr.vMerge_val tcPr
  end.

(** The EMU length value of ./w:tcPr/w:tcW, or [None] if not present. *)
Definition width (self : element) : result (option Z) :=
  match tcPr self with
  | None => Ok None
  | Some tcPr => CT_TcPr.width tcPr
  end.

(** [a] and [b] are the identities of the [<w:tcPr>] and of the
    [<w:tcW>] added when there is none. *)
Definition set_width (a b : nat) (self : element) (value : Z) : element :=
  let self := get_or_add_tcPr a self in
  etree.modify_child self "w:tcPr" (fun tcPr => CT_TcPr.set_width b tcPr value).

(** [a] is the identity of the new table, as for [CT_Tbl.new]. *)
Definition _new_tbl (a : nat) : element := CT_Tbl.new a.

End CT_Tc.

(** ** Notions the specification uses *)

(** The optional children that [CT_TcPr] declares: width, grid span and
    vertical-merge marker. *)
Inductive tcPr_child : Type := TcW | GridSpan | VMerge.

Definition child_tag (k : tcPr_child) : string :=
  match k with
  | TcW => "w:tcW"
  | GridSpan => "w:gridSpan"
  | VMerge => "w:vMerge"
  end.

Definition get_child (k : tcPr_child) : element -> option element :=
  match k with
  | TcW => CT_TcPr.tcW
  | GridSpan => CT_TcPr.gridSpan
  | VMerge => CT_TcPr.vMerge
  end.

Definition get_or_add_child (k : tcPr_child) : nat -> element -> element :=
  match k with
  | TcW => CT_TcPr.get_or_add_tcW
  | GridSpan => CT_TcPr.get_or_add_gridSpan
  | VMerge => CT_TcPr.get_or_add_vMerge
  end.

(** A sequence of insertions, each with the identity of the object it
    creates, performed from left to right. *)
Definition add_children (ops : list (tcPr_child * nat)) (self : element) : element :=
  foldl (fun e op => get_or_add_child (fst op) (snd op) e) self ops.

(** [ts] can be obtained from [seq] by leaving elements out. *)
Fixpoint is_subsequence (ts seq : list string) : bool :=
  match ts, seq with
  | [], _ => true
  | _ :: _, [] => false
  | t :: ts', s :: seq' =>
      if String.eqb t s then is_subsequence ts' seq' else is_subsequence ts seq'
  end.

(** The children of a [<w:tcPr>] are in schema order: their tags follow
    the fixed tag sequence, each at most once. *)
Definition in_schema_order (self : element) : Prop :=
  is_subsequence (tag <$> children self) CT_TcPr._tag_seq = true.

(** Position of a tag in the fixed tag sequence. *)
Fixpoint position_in (seq : list string) (t : string) : option nat :=
  match seq with
  | [] => None
  | s :: seq' => if String.eqb s t then Some 0 else S <$> position_in seq' t
  end.

Definition schema_index : string -> option nat := position_in CT_TcPr._tag_seq.

(** [t] comes before [u] in the fixed tag sequence. *)
Definition earlier (t u : string) : Prop :=
  match schema_index t, schema_index u with
  | Some i, Some j => i < j
  | _, _ => False
  end.

(** The fixed tag sequence around the tag of each child: the tags before
    it, and its declared successors, the part of the sequence after it. *)
Definition predecessors (k : tcPr_child) : list string :=
  match k with
  | TcW => take 1 CT_TcPr._tag_seq
  | GridSpan => take 2 CT_TcPr._tag_seq
  | VMerge => take 4 CT_TcPr._tag_seq
  end.

Definition successors (k : tcPr_child) : list string :=
  match k with
  | TcW => CT_TcPr.tcW_successors
  | GridSpan => CT_TcPr.gridSpan_successors
  | VMerge => CT_TcPr.vMerge_successors
  end.

(** What a generator has still to yield: the cells of the current row
    not yet yielded, then the cells of the rows not yet visited. *)
Definition remaining (tc_lst : element → list element) (g : generator.t)
  : list element :=
  generator.pending g ++ (generator.rows_left g ≫= tc_lst).

(** The fixed sequence of the children of a [<w:tblPr>]: the style
    reference, then its declared successors. *)
Definition tblPr_tag_seq : list string :=
  "w:tblStyle" :: CT_TblPr.tblStyle_successors.

(** The children of a [<w:tblPr>] are in schema order. *)
Definition in_tblPr_order (self : element) : Prop :=
  is_subsequence (tag <$> children self) tblPr_tag_seq = true.

(** ** Quick checks of the embedding on concrete trees *)

Example new_tbl_col_count : CT_Tbl.col_count (CT_Tbl.new 0) = Ok 0%nat.
Proof. reflexivity. Qed.

Example new_tc_width_1cm :
  CT_Tc.width (CT_Tc.set_width 10 11 (CT_Tc.new 0) 360000) = Ok (Some 360045%Z).
Proof. vm_compute. reflexivity. Qed.

Example vMerge_before_gridSpan :
  tag <$> (children (CT_TcPr.get_or_add_gridSpan 2
                       (CT_TcPr.get_or_add_vMerge 1 (etree.OxmlElement 0 "w:tcPr"))))
  = ["w:gridSpan"; "w:vMerge"].
Proof. reflexivity. Qed.

(** ** Lemmas on the element tree *)

Section find_pos.
Implicit Types (t : string) (cs : list element).

Lemma find_pos_None t cs :
  etree.find_pos t cs = None ↔ t ∉ tag <$> cs.
Proof.
  induction cs as [|c cs IH]; simpl.
  - split; [intros _; apply not_elem_of_nil | done].
  - destruct (String.eqb_spec (tag c) t) as [->|Hne].
    + split; [done | intros []; left].
    + rewrite fmap_None, IH, not_elem_of_cons. intuition congruence.
Qed.

Lemma find_pos_app_here t before c after :
  t ∉ tag <$> before → tag c = t →
  etree.find_pos t (before ++ c :: after) = Some (length before).
Proof.
  intros Hbefore <-. induction before as [|b before IH]; simpl.
  - by rewrite String.eqb_refl.
  - apply not_elem_of_cons in Hbefore as [Hb Hbefore].
    destruct (String.eqb_spec (tag b) (tag c)) as [Heq|_]; [congruence|].
    by rewrite IH.
Qed.

Lemma find_pos_Some t cs i :
  etree.find_pos t cs = Some i →
  ∃ before c after, cs = before ++ c :: after ∧ length before = i
                    ∧ tag c = t ∧ t ∉ tag <$> before.
Proof.
  revert i. induction cs as [|c cs IH]; intros i; simpl; [done|].
  destruct (String.eqb_spec (tag c) t) as [Heq|Hne].
  - intros [= <-]. exists [], c, cs. repeat split; auto. apply not_elem_of_nil.
  - destruct (etree.find_pos t cs) as [j|] eqn:Hj; simpl; [|done].
    intros [= <-]. destruct (IH j eq_refl) as (before & c' & after & -> & <- & Htag & Hnot).
    exists (c :: before), c', after. repeat split; auto.
    simpl. apply not_elem_of_cons. auto.
Qed.

Lemma find_app_here self t before c after :
  children self = before ++ c :: after →
  t ∉ tag <$> before → tag c = t →
  etree.find self t = Some c.
Proof.
  intros Hcs Hbefore Htag. unfold etree.find.
  rewrite Hcs, (find_pos_app_here t before c after Hbefore Htag). simpl.
  by rewrite list_lookup_middle.
Qed.

Lemma find_None self t : etree.find self t = None ↔ t ∉ tag <$> children self.
Proof.
  rewrite <- find_pos_None. unfold etree.find.
  destruct (etree.find_pos t (children self)) as [i|] eqn:Hi; simpl; [|done].
  apply find_pos_Some in Hi as (before & c & after & -> & <- & _ & _).
  rewrite list_lookup_middle by done. done.
Qed.

Lemma find_Some self t c :
  etree.find self t = Some c →
  ∃ before after, children self = before ++ c :: after
                  ∧ tag c = t ∧ t ∉ tag <$> before.
Proof.
  unfold etree.find.
  destruct (etree.find_pos t (children self)) as [i|] eqn:Hi; simpl; [|done].
  apply find_pos_Some in Hi as (before & c' & after & -> & <- & Htag & Hnot).
  rewrite list_lookup_middle by done. intros [= <-]. eauto.
Qed.
End find_pos.

(** ** Insertion before the first existing successor *)

Lemma is_subsequence_sublist (ts seq : list string) :
  is_subsequence ts seq = true ↔ ts `sublist_of` seq.
Proof.
  revert ts. induction seq as [|s seq IH]; intros [|t ts]; simpl.
  - split; [constructor | done].
  - split; [done | by intros ?%sublist_nil_r].
  - split; [intros _; apply sublist_nil_l | done].
  - destruct (String.eqb_spec t s) as [->|Hne]; rewrite IH.
    + split; [by constructor|].
      intros [H|(l' & [= <-] & H)]%sublist_cons_r; [|done].
      apply sublist_cons_l in H as (k1 & k2 & -> & Hk).
      by apply sublist_inserts_l, sublist_cons.
    + split; [by constructor|].
      intros [Hs|(l' & [= Ht Hl] & Hs)]%sublist_cons_r; [done | congruence].
Qed.

Section insert_before_successors.
(** The fixed sequence is [pre ++ t :: post]; a child tagged [t] is
    declared with the successors [post]. *)
Variables (pre post : list string) (t : string).
Hypothesis seq_NoDup : NoDup (pre ++ t :: post).

Lemma pre_post_disjoint u : u ∈ pre → u ∉ post.
Proof.
  intros Hpre Hpost. apply NoDup_app in seq_NoDup as (_ & Hdisj & _).
  apply (Hdisj u Hpre). by right.
Qed.

Lemma post_NoDup : NoDup post.
Proof.
  apply NoDup_app in seq_NoDup as (_ & _ & Hpost). by apply NoDup_cons in Hpost as [_ ?].
Qed.

(** With no child among the successors the lookup finds nothing. *)
Lemma first_child_found_in_none self succs :
  (∀ u, u ∈ succs → u ∉ tag <$> children self) →
  xmlchemy.first_child_found_in self succs = None.
Proof.
  induction succs as [|s succs IH]; intros Hnone; simpl; [done|].
  assert (etree.find_pos s (children self) = None) as ->.
  { apply find_pos_None, Hnone. by left. }
  apply IH. intros u Hu. apply Hnone. by right.
Qed.

(** Otherwise it finds the first child that carries a successor tag,
    when the children follow the order of the successors. *)
Lemma first_child_found_in_here self before c after succs :
  children self = before ++ c :: after →
  NoDup succs →
  (∀ u, u ∈ succs → u ∉ tag <$> before) →
  tag <$> c :: after `sublist_of` succs →
  xmlchemy.first_child_found_in self succs = Some (length before).
Proof.
  intros Hcs. induction succs as [|s succs IH]; intros Hnd Hbefore Hsub; simpl.
  { by apply sublist_nil_r in Hsub. }
  apply NoDup_cons in Hnd as [Hs Hnd]. rewrite Hcs.
  simpl in Hsub. apply sublist_cons_r in Hsub as [Hsub|(l' & [= Htag <-] & Hsub)].
  - assert (etree.find_pos s (before ++ c :: after) = None) as ->.
    { apply find_pos_None. rewrite fmap_app. intros [Hin|Hin]%elem_of_app.
      - revert Hin. apply Hbefore. by left.
      - apply Hs. eapply elem_of_sublist; [exact Hin | exact Hsub]. }
    apply IH; auto.
    intros u Hu. apply Hbefore. by right.
  - rewrite (find_pos_app_here s before c after); auto.
    apply Hbefore. by left.
Qed.

(** The placement of a new [t]-child among children in schema order. *)
Lemma insert_element_before_placement self new :
  tag <$> children self `sublist_of` pre ++ t :: post →
  t ∉ tag <$> children self →
  ∃ before after,
    children self = before ++ after
    ∧ children (xmlchemy.insert_element_before self new post)
      = before ++ new :: after
    ∧ tag <$> before `sublist_of` pre
    ∧ tag <$> after `sublist_of` post.
Proof.
  intros Hsub Habsent.
  apply sublist_app_r in Hsub as (l1 & l2 & Htags & Hl1 & Hl2).
  apply sublist_cons_r in Hl2 as [Hl2|(l' & -> & _)]; cycle 1.
  { exfalso. apply Habsent. rewrite Htags, elem_of_app. right. by left. }
  apply fmap_app_inv in Htags as (before & after & -> & -> & Hcs).
  exists before, after. repeat split; auto.
  assert (∀ u, u ∈ post → u ∉ tag <$> before) as Hdisj.
  { intros u Hu Hin. eapply pre_post_disjoint; [|exact Hu].
    eapply elem_of_sublist; [exact Hin | exact Hl1]. }
  unfold xmlchemy.insert_element_before.
  destruct after as [|c after].
  - rewrite first_child_found_in_none.
    + simpl. by rewrite Hcs, app_nil_r.
    + intros u Hu. rewrite Hcs, app_nil_r. auto.
  - rewrite (first_child_found_in_here self before c after post Hcs post_NoDup Hdisj Hl2).
    simpl. rewrite Hcs.
    by rewrite take_app_length, drop_app_length.
Qed.
End insert_before_successors.

(** ** The optional children of [CT_TcPr] *)

Lemma _tag_seq_NoDup : NoDup CT_TcPr._tag_seq.
Proof. apply (bool_decide_unpack _). vm_compute. exact I. Qed.

Lemma _tag_seq_split k :
  CT_TcPr._tag_seq = predecessors k ++ child_tag k :: successors k.
Proof. by destruct k. Qed.

Lemma get_child_find k self : get_child k self = etree.find self (child_tag k).
Proof. by destruct k. Qed.

Lemma get_or_add_child_unfold k a self :
  get_or_add_child k a self =
  match get_child k self with
  | None => xmlchemy.insert_element_before self
              (etree.OxmlElement a (child_tag k)) (successors k)
  | Some _ => self
  end.
Proof. by destruct k. Qed.

Lemma predecessors_earlier k u : u ∈ predecessors k → earlier u (child_tag k).
Proof.
  destruct k; cbn; intros Hu;
    repeat (apply elem_of_cons in Hu as [->|Hu]; [vm_compute; lia|]);
    by apply elem_of_nil in Hu.
Qed.

Lemma successors_later k u : u ∈ successors k → earlier (child_tag k) u.
Proof.
  destruct k; cbn; intros Hu;
    repeat (apply elem_of_cons in Hu as [->|Hu]; [vm_compute; lia|]);
    by apply elem_of_nil in Hu.
Qed.

Lemma in_schema_order_sublist self :
  in_schema_order self ↔ tag <$> children self `sublist_of` CT_TcPr._tag_seq.
Proof. apply is_subsequence_sublist. Qed.

(** One insertion into children that are in schema order. *)
Lemma get_or_add_child_placement k a self :
  in_schema_order self →
  get_child k self = None →
  ∃ before after,
    children self = before ++ after
    ∧ children (get_or_add_child k a self)
      = before ++ etree.OxmlElement a (child_tag k) :: after
    ∧ tag <$> before `sublist_of` predecessors k
    ∧ tag <$> after `sublist_of` successors k.
Proof.
  intros Hord Hnone. rewrite get_or_add_child_unfold, Hnone.
  apply in_schema_order_sublist in Hord.
  rewrite (_tag_seq_split k) in Hord.
  apply (insert_element_before_placement (predecessors k) (successors k) (child_tag k)).
  - rewrite <- _tag_seq_split. apply _tag_seq_NoDup.
  - done.
  - apply find_None. by rewrite <- get_child_find.
Qed.

Lemma get_or_add_child_in_schema_order k a self :
  in_schema_order self → in_schema_order (get_or_add_child k a self).
Proof.
  intros Hord. destruct (get_child k self) as [c|] eqn:Hget.
  - by rewrite get_or_add_child_unfold, Hget.
  - destruct (get_or_add_child_placement k a self Hord Hget)
      as (before & after & _ & Hnew & Hbefore & Hafter).
    apply in_schema_order_sublist.
    rewrite Hnew, fmap_app, fmap_cons, (_tag_seq_split k). simpl.
    apply sublist_app; [done|]. by apply sublist_skip.
Qed.

Lemma add_children_in_schema_order ops self :
  in_schema_order self → in_schema_order (add_children ops self).
Proof.
  revert self. induction ops as [|[k a] ops IH]; intros self Hord; simpl; [done|].
  apply IH. by apply get_or_add_child_in_schema_order.
Qed.

(** C1.  Starting from a Cell Properties element whose children are in
    schema order (an empty one in particular), any sequence of insertions
    of the width, grid-span and vertical-merge children, in any call
    order, leaves the children in the fixed schema order; and at every
    point of the sequence a child that is added is placed immediately
    before the first present child that is later in the fixed tag
    sequence and after all present children that are earlier in it. *)
Theorem tcPr_insertions_keep_schema_order
    (tcPr : element) (ops : list (tcPr_child * nat)) :
  in_schema_order tcPr →
  in_schema_order (add_children ops tcPr)
  ∧ ∀ k a,
      get_child k (add_children ops tcPr) = None →
      ∃ before after,
        children (add_children ops tcPr) = before ++ after
        ∧ children (get_or_add_child k a (add_children ops tcPr))
          = before ++ etree.OxmlElement a (child_tag k) :: after
        ∧ Forall (λ c, earlier (tag c) (child_tag k)) before
        ∧ Forall (λ c, earlier (child_tag k) (tag c)) after.
Proof.
  intros Hord.
  pose proof (add_children_in_schema_order ops tcPr Hord) as Hord'.
  split; [done|]. intros k a Hnone.
  destruct (get_or_add_child_placement k a _ Hord' Hnone)
    as (before & after & Hold & Hnew & Hbefore & Hafter).
  exists before, after. repeat split; auto.
  - apply Forall_forall. intros c Hc. apply predecessors_earlier.
    eapply elem_of_sublist; [|exact Hbefore]. by apply list_elem_of_fmap_2.
  - apply Forall_forall. intros c Hc. apply successors_later.
    eapply elem_of_sublist; [|exact Hafter]. by apply list_elem_of_fmap_2.
Qed.

(** The example of the specification: the vertical-merge marker is
    inserted first, the grid span second, and the grid span comes first. *)
Lemma tcPr_insertions_keep_schema_order_witness :
  let tcPr := etree.OxmlElement 0 "w:tcPr" in
  let ops := [(VMerge, 1); (GridSpan, 2)] in
  tag <$> children (add_children ops tcPr) = ["w:gridSpan"; "w:vMerge"]
  ∧ in_schema_order (add_children ops tcPr)
  ∧ ∀ k a,
      get_child k (add_children ops tcPr) = None →
      ∃ before after,
        children (add_children ops tcPr) = before ++ after
        ∧ children (get_or_add_child k a (add_children ops tcPr))
          = before ++ etree.OxmlElement a (child_tag k) :: after
        ∧ Forall (λ c, earlier (tag c) (child_tag k)) before
        ∧ Forall (λ c, earlier (child_tag k) (tag c)) after.
Proof.
  intros tcPr ops. split; [reflexivity|].
  apply (tcPr_insertions_keep_schema_order tcPr ops). reflexivity.
Defined.

(** ** Attributes *)

Lemma get_set_eq e name value : etree.get (etree.set e name value) name = Some value.
Proof. unfold etree.get, etree.set. simpl. apply lookup_insert_eq. Qed.

Lemma get_set_ne e name name' value :
  name ≠ name' → etree.get (etree.set e name value) name' = etree.get e name'.
Proof. intros Hne. unfold etree.get, etree.set. simpl. by apply lookup_insert_ne. Qed.

(** The decimal numeral of an integer reads back as that integer. *)
Lemma int_from_to_xml (z : Z) :
  simpletypes.int_from_xml (simpletypes.int_to_xml z) = Ok z.
Proof.
  unfold simpletypes.int_from_xml, simpletypes.int_to_xml.
  rewrite NilZero.isi.
  - by rewrite DecimalZ.of_to.
  - destruct z; simpl; try discriminate.
    intros [= H]. by apply Unsigned.to_uint_nonnil in H.
  - destruct z; simpl; try discriminate.
    intros [= H]. by apply Unsigned.to_uint_nonnil in H.
Qed.

(** ** Width values *)

Lemma set_width_type e W :
  CT_TblWidth.type (CT_TblWidth.set_width e W) = Ok "dxa".
Proof.
  unfold CT_TblWidth.type, CT_TblWidth.set_width, CT_TblWidth.set_w,
    CT_TblWidth.set_type, xmlchemy.RequiredAttribute_get, xmlchemy.RequiredAttribute_set.
  by rewrite get_set_ne, get_set_eq.
Qed.

Lemma set_width_w e W :
  CT_TblWidth.w (CT_TblWidth.set_width e W) = Ok (shared.twips (shared.Emu W)).
Proof.
  unfold CT_TblWidth.w, CT_TblWidth.set_width, CT_TblWidth.set_w,
    xmlchemy.RequiredAttribute_get, xmlchemy.RequiredAttribute_set.
  rewrite get_set_eq. apply int_from_to_xml.
Qed.

Lemma set_width_width e W :
  CT_TblWidth.width (CT_TblWidth.set_width e W)
  = Ok (Some (shared.Twips (shared.twips (shared.Emu W)))).
Proof.
  unfold CT_TblWidth.width. rewrite set_width_type. simpl.
  by rewrite set_width_w.
Qed.

Lemma set_width_tag e W : tag (CT_TblWidth.set_width e W) = tag e.
Proof. done. Qed.

(** A length survives the conversion to whole twips and back exactly
    when it is a whole number of twips. *)
Lemma Twips_twips_id (W : Z) :
  shared.Twips (shared.twips (shared.Emu W)) = W ↔ (W mod 635 = 0)%Z.
Proof.
  unfold shared.Twips, shared.twips, shared.Emu, shared._EMUS_PER_TWIP.
  split; intros H; Z.div_mod_to_equations; lia.
Qed.

Lemma Twips_twips_nearest (W : Z) :
  (Z.abs (shared.Twips (shared.twips (shared.Emu W)) - W) <= 317)%Z.
Proof.
  unfold shared.Twips, shared.twips, shared.Emu, shared._EMUS_PER_TWIP.
  Z.div_mod_to_equations; lia.
Qed.

(** ** A child obtained by [get_or_add] and mutated in place *)

Lemma modify_first_app t f before c after :
  t ∉ tag <$> before → tag c = t →
  etree.modify_first t f (before ++ c :: after) = before ++ f c :: after.
Proof.
  intros Hbefore Htag. induction before as [|b before IH]; simpl.
  - by rewrite <- Htag, String.eqb_refl.
  - apply not_elem_of_cons in Hbefore as [Hb Hbefore].
    destruct (String.eqb_spec (tag b) t) as [Heq|_]; [congruence|].
    by rewrite IH.
Qed.

Lemma modify_first_absent t f cs :
  t ∉ tag <$> cs → etree.modify_first t f cs = cs.
Proof.
  induction cs as [|c cs IH]; simpl; [done|].
  intros [Hc Hcs]%not_elem_of_cons.
  destruct (String.eqb_spec (tag c) t) as [Heq|_]; [congruence|].
  by rewrite IH.
Qed.

Lemma find_modify_child self t f :
  (∀ c, tag (f c) = tag c) →
  etree.find (etree.modify_child self t f) t = f <$> etree.find self t.
Proof.
  intros Hf. destruct (etree.find self t) as [c|] eqn:Hfind; simpl.
  - apply find_Some in Hfind as (before & after & Hcs & Htag & Hbefore).
    apply (find_app_here _ t before (f c) after); auto; [|by rewrite Hf].
    unfold etree.modify_child. simpl. rewrite Hcs. by apply modify_first_app.
  - apply find_None in Hfind. apply find_None.
    unfold etree.modify_child. simpl. by rewrite modify_first_absent.
Qed.

Lemma find_insert_element_before self new t succs :
  t ∉ tag <$> children self → tag new = t →
  etree.find (xmlchemy.insert_element_before self new succs) t = Some new.
Proof.
  intros Habsent Htag. unfold xmlchemy.insert_element_before.
  destruct (xmlchemy.first_child_found_in self succs) as [i|].
  - apply (find_app_here _ t (take i (children self)) new (drop i (children self)));
      auto.
    intros Hin. apply Habsent. rewrite <- (take_drop i (children self)), fmap_app.
    apply elem_of_app. by left.
  - apply (find_app_here _ t (children self) new []); auto.
Qed.

Lemma find_get_or_add t succs a self :
  etree.find (xmlchemy.ZeroOrOne_get_or_add t succs a self) t
  = Some (default (etree.OxmlElement a t) (etree.find self t)).
Proof.
  unfold xmlchemy.ZeroOrOne_get_or_add, xmlchemy.ZeroOrOne_get.
  destruct (etree.find self t) as [c|] eqn:Hfind; simpl; [done|].
  apply find_insert_element_before; [by apply find_None | done].
Qed.

Lemma tag_get_or_add t succs a self :
  tag (xmlchemy.ZeroOrOne_get_or_add t succs a self) = tag self.
Proof.
  unfold xmlchemy.ZeroOrOne_get_or_add, xmlchemy.ZeroOrOne_add,
    xmlchemy.ZeroOrOne_insert, xmlchemy.insert_element_before.
  destruct (xmlchemy.ZeroOrOne_get t self); [done|].
  by destruct (xmlchemy.first_child_found_in self succs).
Qed.

Lemma tcPr_set_width_tag a tcPr W : tag (CT_TcPr.set_width a tcPr W) = tag tcPr.
Proof. unfold CT_TcPr.set_width. simpl. apply tag_get_or_add. Qed.

Lemma tcPr_set_width_width a tcPr W :
  CT_TcPr.width (CT_TcPr.set_width a tcPr W)
  = Ok (Some (shared.Twips (shared.twips (shared.Emu W)))).
Proof.
  unfold CT_TcPr.width, CT_TcPr.set_width, CT_TcPr.tcW, xmlchemy.ZeroOrOne_get,
    CT_TcPr.get_or_add_tcW.
  rewrite find_modify_child by done. rewrite find_get_or_add. simpl.
  apply set_width_width.
Qed.

Lemma tcPr_set_width_type a tcPr W :
  CT_TblWidth.type <$> CT_TcPr.tcW (CT_TcPr.set_width a tcPr W) = Some (Ok "dxa").
Proof.
  unfold CT_TcPr.set_width, CT_TcPr.tcW, xmlchemy.ZeroOrOne_get,
    CT_TcPr.get_or_add_tcW.
  rewrite find_modify_child by done. rewrite find_get_or_add. simpl.
  by rewrite set_width_type.
Qed.

Lemma find_insert_0 self new t :
  tag new = t → etree.find (etree.insert self 0 new) t = Some new.
Proof.
  intros Htag. apply (find_app_here _ t [] new (children self)); auto.
  apply not_elem_of_nil.
Qed.

Lemma tc_set_width_width a b tc W :
  CT_Tc.width (CT_Tc.set_width a b tc W)
  = Ok (Some (shared.Twips (shared.twips (shared.Emu W)))).
Proof.
  unfold CT_Tc.width, CT_Tc.set_width, CT_Tc.tcPr, xmlchemy.ZeroOrOne_get.
  rewrite find_modify_child by (intros; apply tcPr_set_width_tag).
  assert (is_Some (etree.find (CT_Tc.get_or_add_tcPr a tc) "w:tcPr")) as [c ->].
  { unfold CT_Tc.get_or_add_tcPr, CT_Tc.tcPr, xmlchemy.ZeroOrOne_get.
    destruct (etree.find tc "w:tcPr") as [c|] eqn:Hfind; [by rewrite Hfind|].
    unfold CT_Tc._add_tcPr, CT_Tc._insert_tcPr.
    by rewrite find_insert_0. }
  simpl. apply tcPr_set_width_width.
Qed.

(** C2 (as the code has it).  After a width is written to a width value
    element its type discriminator is 'dxa' and reading the width returns
    the written length rounded to whole twips; it is the written length
    itself exactly when that is a whole number of twips (a multiple of
    635 EMU).  The same holds through the width setters of Cell
    Properties and of the cell. *)
Theorem width_write_then_read (tcW tcPr tc : element) (a b : nat) (W : Z) :
  CT_TblWidth.type (CT_TblWidth.set_width tcW W) = Ok "dxa"
  ∧ CT_TblWidth.width (CT_TblWidth.set_width tcW W)
    = Ok (Some (shared.Twips (shared.twips (shared.Emu W))))
  ∧ (CT_TblWidth.width (CT_TblWidth.set_width tcW W) = Ok (Some W)
     ↔ (W mod 635 = 0)%Z)
  ∧ (Z.abs (shared.Twips (shared.twips (shared.Emu W)) - W) <= 317)%Z
  ∧ CT_TblWidth.type <$> CT_TcPr.tcW (CT_TcPr.set_width a tcPr W) = Some (Ok "dxa")
  ∧ CT_TcPr.width (CT_TcPr.set_width a tcPr W)
    = Ok (Some (shared.Twips (shared.twips (shared.Emu W))))
  ∧ CT_Tc.width (CT_Tc.set_width a b tc W)
    = Ok (Some (shared.Twips (shared.twips (shared.Emu W)))).
Proof.
  repeat split.
  - apply set_width_type.
  - apply set_width_width.
  - rewrite set_width_width. intros [= H]. by apply Twips_twips_id.
  - intros H. rewrite set_width_width. do 2 f_equal. by apply Twips_twips_id.
  - apply Twips_twips_nearest.
  - apply tcPr_set_width_type.
  - apply tcPr_set_width_width.
  - apply tc_set_width_width.
Qed.

(** C2 as stated fails: a width of one centimetre, 360000 EMU, is
    stored as 567 twips and reads back as 360045 EMU. *)
Lemma width_write_then_read_changes_1cm :
  let e := etree.OxmlElement 0 "w:tcW" in
  let W := 360000%Z in
  CT_TblWidth.w (CT_TblWidth.set_width e W) = Ok 567%Z
  ∧ CT_TblWidth.width (CT_TblWidth.set_width e W) = Ok (Some 360045%Z)
  ∧ CT_TblWidth.width (CT_TblWidth.set_width e W) ≠ Ok (Some W).
Proof. vm_compute. repeat split; discriminate. Qed.

(** C6.  A width value element whose type discriminator is 'auto', 'nil'
    or 'pct' (any type other than 'dxa') reads as an unset absolute
    length, without an error, whatever its magnitude; a read that yields
    a length has type 'dxa', and an element of type 'dxa' with magnitude
    [v] reads as the length of [v] twips.  The reads of Cell Properties
    and of the cell pass both on. *)
Theorem width_unset_unless_dxa (e : element) (ty : string) :
  CT_TblWidth.type e = Ok ty →
  (ty ∈ ["auto"; "nil"; "pct"] → CT_TblWidth.width e = Ok None)
  ∧ (ty ≠ "dxa" → CT_TblWidth.width e = Ok None)
  ∧ (∀ v, CT_TblWidth.width e = Ok (Some v) → ty = "dxa")
  ∧ (∀ tcPr, CT_TcPr.tcW tcPr = Some e → ty ≠ "dxa" → CT_TcPr.width tcPr = Ok None)
  ∧ (∀ tc tcPr, CT_Tc.tcPr tc = Some tcPr → CT_TcPr.tcW tcPr = Some e →
       ty ≠ "dxa" → CT_Tc.width tc = Ok None)
  ∧ (∀ v, ty = "dxa" → CT_TblWidth.w e = Ok v →
       CT_TblWidth.width e = Ok (Some (shared.Twips v)))
  ∧ (∀ l, CT_TblWidth.width e = Ok (Some l)
          ↔ ty = "dxa" ∧ ∃ v, CT_TblWidth.w e = Ok v ∧ l = shared.Twips v)
  ∧ (∀ tcPr v, CT_TcPr.tcW tcPr = Some e → ty = "dxa" → CT_TblWidth.w e = Ok v →
       CT_TcPr.width tcPr = Ok (Some (shared.Twips v)))
  ∧ (∀ tc tcPr v, CT_Tc.tcPr tc = Some tcPr → CT_TcPr.tcW tcPr = Some e →
       ty = "dxa" → CT_TblWidth.w e = Ok v →
       CT_Tc.width tc = Ok (Some (shared.Twips v))).
Proof.
  intros Hty.
  assert (ty ≠ "dxa" → CT_TblWidth.width e = Ok None) as Hne.
  { intros Hne. unfold CT_TblWidth.width. rewrite Hty. simpl.
    by destruct (String.eqb_spec ty "dxa"). }
  assert (∀ v, ty = "dxa" → CT_TblWidth.w e = Ok v →
            CT_TblWidth.width e = Ok (Some (shared.Twips v))) as Hdxa.
  { intros v -> Hw. unfold CT_TblWidth.width. rewrite Hty. simpl. by rewrite Hw. }
  split; [|split; [|split; [|split; [|split; [|split; [|split; [|split]]]]]]].
  - intros Hin. apply Hne. intros ->. vm_compute in Hin.
    repeat (apply elem_of_cons in Hin as [[=]|Hin]). by apply elem_of_nil in Hin.
  - done.
  - intros v Hv. destruct (decide (ty = "dxa")) as [|Hd]; [done|].
    rewrite (Hne Hd) in Hv. discriminate.
  - intros tcPr HtcW Hd. unfold CT_TcPr.width. rewrite HtcW. auto.
  - intros tc tcPr HtcPr HtcW Hd. unfold CT_Tc.width, CT_TcPr.width.
    rewrite HtcPr, HtcW. auto.
  - exact Hdxa.
  - intros l. split.
    + intros Hl. destruct (decide (ty = "dxa")) as [->|Hd]; cycle 1.
      { rewrite (Hne Hd) in Hl. discriminate. }
      split; [done|]. unfold CT_TblWidth.width in Hl. rewrite Hty in Hl.
      simpl in Hl. destruct (CT_TblWidth.w e) as [v|]; simpl in Hl; [|done].
      injection Hl as <-. by exists v.
    + intros (Hd & v & Hw & ->). by apply Hdxa.
  - intros tcPr v HtcW Hd Hw. unfold CT_TcPr.width. rewrite HtcW. auto.
  - intros tc tcPr v HtcPr HtcW Hd Hw. unfold CT_Tc.width, CT_TcPr.width.
    rewrite HtcPr, HtcW. auto.
Qed.

(** The example of the specification, type 'pct' with magnitude 5000,
    and a width of type 'dxa' with magnitude 1440, one inch. *)
Lemma width_unset_unless_dxa_witness :
  let tcW := Element 2 "w:tcW" (<["w:type" := "pct"]> (<["w:w" := "5000"]> ∅)) [] in
  let tcPr := Element 1 "w:tcPr" ∅ [tcW] in
  let tc := Element 0 "w:tc" ∅ [tcPr; Element 3 "w:p" ∅ []] in
  let tcW' := Element 2 "w:tcW" (<["w:type" := "dxa"]> (<["w:w" := "1440"]> ∅)) [] in
  let tcPr' := Element 1 "w:tcPr" ∅ [tcW'] in
  let tc' := Element 0 "w:tc" ∅ [tcPr'; Element 3 "w:p" ∅ []] in
  CT_TblWidth.w tcW = Ok 5000%Z
  ∧ CT_TblWidth.width tcW = Ok None
  ∧ CT_TcPr.width tcPr = Ok None
  ∧ CT_Tc.width tc = Ok None
  ∧ CT_TblWidth.width tcW' = Ok (Some 914400%Z)
  ∧ CT_TcPr.width tcPr' = Ok (Some 914400%Z)
  ∧ CT_Tc.width tc' = Ok (Some 914400%Z).
Proof.
  intros tcW tcPr tc tcW' tcPr' tc'.
  destruct (width_unset_unless_dxa tcW "pct" eq_refl) as (H1 & _ & _ & H2 & H3 & _).
  destruct (width_unset_unless_dxa tcW' "dxa" eq_refl)
    as (_ & _ & _ & _ & _ & H4 & _ & H5 & H6).
  split; [reflexivity|]. split; [|split; [|split; [|split; [|split]]]].
  - apply H1. vm_compute. right. right. left.
  - apply H2; [reflexivity | discriminate].
  - apply (H3 tc tcPr); [reflexivity | reflexivity | discriminate].
  - apply (H4 1440%Z); reflexivity.
  - apply (H5 tcPr' 1440%Z); reflexivity.
  - apply (H6 tc' tcPr' 1440%Z); reflexivity.
Defined.

(** C5.  The vertical-merge read of a cell has two layers of defaults: a
    marker element without a state attribute reads as 'continue' (and
    one with the attribute as its value); a cell without the marker, or
    without Cell Properties, reads as unset, which is not 'continue'. *)
Theorem vMerge_two_default_layers (tc : element) :
  (∀ tcPr m, CT_Tc.tcPr tc = Some tcPr → CT_TcPr.vMerge tcPr = Some m →
     etree.get m "w:val" = None → CT_Tc.vMerge tc = Ok (Some "continue"))
  ∧ (∀ tcPr m s, CT_Tc.tcPr tc = Some tcPr → CT_TcPr.vMerge tcPr = Some m →
       etree.get m "w:val" = Some s → CT_Tc.vMerge tc = Ok (Some s))
  ∧ (∀ tcPr, CT_Tc.tcPr tc = Some tcPr → CT_TcPr.vMerge tcPr = None →
       CT_Tc.vMerge tc = Ok None)
  ∧ (CT_Tc.tcPr tc = None → CT_Tc.vMerge tc = Ok None)
  ∧ @Ok (option string) None ≠ Ok (Some "continue").
Proof.
  unfold CT_Tc.vMerge, CT_TcPr.vMerge_val, CT_VMerge.val,
    xmlchemy.OptionalAttribute_get.
  repeat split.
  - intros tcPr m -> -> ->. done.
  - intros tcPr m s -> -> ->. done.
  - intros tcPr -> ->. done.
  - intros ->. done.
  - discriminate.
Qed.

Lemma vMerge_two_default_layers_witness :
  let marker := Element 2 "w:vMerge" ∅ [] in
  let tcPr := Element 1 "w:tcPr" ∅ [Element 3 "w:gridSpan" ∅ []; marker] in
  let tc := Element 0 "w:tc" ∅ [tcPr; Element 4 "w:p" ∅ []] in
  CT_Tc.vMerge tc = Ok (Some "continue")
  ∧ CT_Tc.vMerge (Element 0 "w:tc" ∅ [Element 1 "w:tcPr" ∅ []]) = Ok None
  ∧ CT_Tc.vMerge (CT_Tc.new 0) = Ok None.
Proof.
  intros marker tcPr tc. split; [|split].
  - destruct (vMerge_two_default_layers tc) as (H & _).
    apply (H tcPr marker); reflexivity.
  - destruct (vMerge_two_default_layers (Element 0 "w:tc" ∅ [Element 1 "w:tcPr" ∅ []]))
      as (_ & _ & H & _).
    apply (H (Element 1 "w:tcPr" ∅ [])); reflexivity.
  - destruct (vMerge_two_default_layers (CT_Tc.new 0)) as (_ & _ & _ & H & _).
    apply H. reflexivity.
Defined.

(** ** Cells *)


(** C9.  A cell made by the constructor holds exactly one child, an
    empty paragraph, and no Cell Properties; its grid span reads as 1,
    its vertical-merge state and its width as unset, none with an
    error. *)
Theorem new_cell_defaults (a : nat) :
  children (CT_Tc.new a) = [Element (a + 1) "w:p" ∅ []]
  ∧ CT_Tc.p_lst (CT_Tc.new a) = [Element (a + 1) "w:p" ∅ []]
  ∧ CT_Tc.tbl_lst (CT_Tc.new a) = []
  ∧ CT_Tc.tcPr (CT_Tc.new a) = None
  ∧ CT_Tc.grid_span (CT_Tc.new a) = Ok 1%Z
  ∧ CT_Tc.vMerge (CT_Tc.new a) = Ok None
  ∧ CT_Tc.width (CT_Tc.new a) = Ok None.
Proof. repeat split. Qed.

(** ** Tables *)

(** C3.  A table made by the constructor has a Properties child whose
    only child is a width of type 'auto' and magnitude 0, an empty Grid
    and no rows; its column count is 0 and its layout reads as
    autofit. *)
Theorem new_table_is_minimal (a : nat) :
  ∃ tblPr tblW tblGrid,
    children (CT_Tbl.new a) = [tblPr; tblGrid]
    ∧ CT_Tbl.tblPr (CT_Tbl.new a) = Ok tblPr
    ∧ children tblPr = [tblW]
    ∧ tag tblW = "w:tblW"
    ∧ CT_TblWidth.type tblW = Ok "auto"
    ∧ CT_TblWidth.w tblW = Ok 0%Z
    ∧ CT_Tbl.tblGrid (CT_Tbl.new a) = Ok tblGrid
    ∧ children tblGrid = []
    ∧ CT_Tbl.tr_lst (CT_Tbl.new a) = []
    ∧ CT_Tbl.col_count (CT_Tbl.new a) = Ok 0
    ∧ CT_TblPr.autofit tblPr = Ok true.
Proof.
  do 3 eexists. repeat split; vm_compute; reflexivity.
Qed.

(** ** Layout mode *)

Lemma autofit_false_iff (tblPr : element) :
  CT_TblPr.autofit tblPr = Ok false
  ↔ ∃ l, CT_TblPr.tblLayout tblPr = Some l ∧ etree.get l "w:type" = Some "fixed".
Proof.
  unfold CT_TblPr.autofit, CT_TblLayoutType.type, xmlchemy.OptionalAttribute_get.
  destruct (CT_TblPr.tblLayout tblPr) as [l|].
  - destruct (etree.get l "w:type") as [s|] eqn:Hs; simpl.
    + case_bool_decide as Hd.
      * injection Hd as ->. split; eauto.
      * split; [done|]. intros (l' & [= <-] & Hl'). congruence.
    + split; [done|]. intros (l' & [= <-] & Hl'). congruence.
  - split; [done|]. by intros (l & ? & _).
Qed.

Lemma autofit_total (tblPr : element) :
  CT_TblPr.autofit tblPr = Ok true ∨ CT_TblPr.autofit tblPr = Ok false.
Proof.
  unfold CT_TblPr.autofit, CT_TblLayoutType.type, xmlchemy.OptionalAttribute_get.
  destruct (CT_TblPr.tblLayout tblPr) as [l|]; [|by left].
  destruct (etree.get l "w:type") as [s|]; simpl; [|by left].
  case_bool_decide; auto.
Qed.

Lemma set_autofit_tblLayout a tblPr b :
  CT_TblPr.tblLayout (CT_TblPr.set_autofit a tblPr b)
  = Some (CT_TblLayoutType.set_type
            (default (etree.OxmlElement a "w:tblLayout") (CT_TblPr.tblLayout tblPr))
            (if b then "autofit" else "fixed")).
Proof.
  unfold CT_TblPr.set_autofit, CT_TblPr.tblLayout, xmlchemy.ZeroOrOne_get,
    CT_TblPr.get_or_add_tblLayout.
  rewrite find_modify_child by done. by rewrite find_get_or_add.
Qed.

(** C10.  Writing [b] to [autofit] and reading it returns [b].  The
    read is [False] exactly when there is a layout-mode child whose type
    attribute is the text 'fixed' and [True] in every other case; the
    write stores the text 'autofit' for [True] and 'fixed' for
    [False]. *)
Theorem autofit_write_then_read (a : nat) (tblPr : element) (b : bool) :
  CT_TblPr.autofit (CT_TblPr.set_autofit a tblPr b) = Ok b
  ∧ (∃ l, CT_TblPr.tblLayout (CT_TblPr.set_autofit a tblPr b) = Some l
          ∧ etree.get l "w:type" = Some (if b then "autofit" else "fixed"))
  ∧ (CT_TblPr.autofit tblPr = Ok false
     ↔ ∃ l, CT_TblPr.tblLayout tblPr = Some l ∧ etree.get l "w:type" = Some "fixed")
  ∧ (CT_TblPr.autofit tblPr = Ok true
     ↔ ¬ ∃ l, CT_TblPr.tblLayout tblPr = Some l ∧ etree.get l "w:type" = Some "fixed").
Proof.
  split; [|split; [|split]].
  - unfold CT_TblPr.autofit. rewrite set_autofit_tblLayout.
    unfold CT_TblLayoutType.type, CT_TblLayoutType.set_type,
      xmlchemy.OptionalAttribute_get, xmlchemy.OptionalAttribute_set.
    rewrite get_set_eq. by destruct b.
  - eexists. split; [apply set_autofit_tblLayout|].
    unfold CT_TblLayoutType.set_type, xmlchemy.OptionalAttribute_set.
    apply get_set_eq.
  - apply autofit_false_iff.
  - rewrite <- autofit_false_iff.
    destruct (autofit_total tblPr) as [H|H]; rewrite H; split; done.
Qed.

(** ** Cell iteration *)

Section generator_facts.
Variable tc_lst : element → list element.

Lemma next_from_remaining rows cells :
  match generator.next_from tc_lst rows cells with
  | None => cells ++ (rows ≫= tc_lst) = []
  | Some (tc, g') => cells ++ (rows ≫= tc_lst) = tc :: remaining tc_lst g'
  end.
Proof.
  revert cells. induction rows as [|tr rows IH]; intros [|c cells]; simpl; try done.
  apply IH.
Qed.

Lemma next_remaining g :
  match generator.next tc_lst g with
  | None => remaining tc_lst g = []
  | Some (tc, g') => remaining tc_lst g = tc :: remaining tc_lst g'
  end.
Proof. destruct g as [cells rows]. apply next_from_remaining. Qed.

(** [list(g)] returns: the generator is finite. *)
Lemma to_list_remaining fuel g :
  length (remaining tc_lst g) < fuel →
  generator.to_list tc_lst fuel g = Some (remaining tc_lst g).
Proof.
  revert g. induction fuel as [|fuel IH]; intros g Hlen; [lia|]. simpl.
  pose proof (next_remaining g) as Hnext.
  destruct (generator.next tc_lst g) as [[tc g']|].
  - rewrite Hnext in Hlen |- *. simpl in Hlen.
    rewrite IH by lia. done.
  - by rewrite Hnext.
Qed.



End generator_facts.

Section uniform_rows.
Context {A B : Type} (f : A → list B) (C : nat).


End uniform_rows.

(** ** Object identities *)

Lemma addrs_unfold e : etree.addrs e = addr e :: flat_map etree.addrs (children e).
Proof. by destruct e. Qed.

Lemma addr_children_sublist (cs : list element) :
  addr <$> cs `sublist_of` flat_map etree.addrs cs.
Proof.
  induction cs as [|c cs IH]; simpl; [constructor|].
  rewrite addrs_unfold. simpl. apply sublist_skip.
  by apply sublist_inserts_l.
Qed.

Lemma addr_filter_sublist (p : element → bool) (cs : list element) :
  addr <$> List.filter p cs `sublist_of` addr <$> cs.
Proof.
  induction cs as [|c cs IH]; simpl; [constructor|].
  destruct (p c); simpl; by constructor.
Qed.


Lemma children_NoDup e : NoDup (etree.addrs e) → NoDup (addr <$> children e).
Proof.
  rewrite addrs_unfold. intros [_ Hnd]%NoDup_cons.
  eapply sublist_NoDup; [done | apply addr_children_sublist].
Qed.





(** ** The parent of an element *)

Lemma element_tree_ind (P : element → Prop) :
  (∀ a t attrs cs, Forall P cs → P (Element a t attrs cs)) → ∀ e, P e.
Proof.
  intros H. fix IH 1. intros [a t attrs cs]. apply H.
  induction cs as [|c cs IHcs]; constructor; [apply IH | apply IHcs].
Qed.

Lemma descendants_unfold e :
  etree.descendants e = e :: flat_map etree.descendants (children e).
Proof. by destruct e. Qed.

Lemma flat_map_elem_of {A B : Type} (f : A → list B) (l : list A) (y : B) :
  y ∈ flat_map f l ↔ ∃ x, x ∈ l ∧ y ∈ f x.
Proof.
  rewrite list_elem_of_In, in_flat_map.
  split; intros (x & Hx & Hy); exists x; by rewrite ?list_elem_of_In in *.
Qed.

Lemma flat_map_sublist {A B : Type} (f : A → list B) (l : list A) (x : A) :
  x ∈ l → f x `sublist_of` flat_map f l.
Proof.
  induction 1 as [x l|x y l _ IH]; simpl.
  - by apply sublist_inserts_r.
  - by apply sublist_inserts_l.
Qed.

(** The identities of a subtree are among those of the tree. *)
Lemma descendants_addrs_sublist e p :
  p ∈ etree.descendants e → etree.addrs p `sublist_of` etree.addrs e.
Proof.
  revert p. induction e as [a t attrs cs IH] using element_tree_ind.
  intros p. rewrite descendants_unfold. simpl.
  intros [->|Hp]%elem_of_cons; [done|].
  apply flat_map_elem_of in Hp as (d & Hd & Hp).
  apply sublist_cons. etrans; [|by apply flat_map_sublist].
  rewrite Forall_forall in IH. by apply IH.
Qed.

Lemma descendants_NoDup e p :
  NoDup (etree.addrs e) → p ∈ etree.descendants e → NoDup (etree.addrs p).
Proof.
  intros Hnd Hp. eapply sublist_NoDup; [exact Hnd|].
  by apply descendants_addrs_sublist.
Qed.

(** A child of an element of the tree lies strictly below the root. *)
Lemma child_addr_below e p c :
  p ∈ etree.descendants e → c ∈ children p →
  addr c ∈ flat_map etree.addrs (children e).
Proof.
  rewrite descendants_unfold. intros [->|Hp]%elem_of_cons Hc.
  - eapply elem_of_sublist; [|apply addr_children_sublist].
    by apply list_elem_of_fmap_2.
  - apply flat_map_elem_of in Hp as (d & Hd & Hp).
    apply flat_map_elem_of. exists d. split; [done|].
    eapply elem_of_sublist; [|by apply descendants_addrs_sublist].
    rewrite addrs_unfold. right.
    eapply elem_of_sublist; [|apply addr_children_sublist].
    by apply list_elem_of_fmap_2.
Qed.

Lemma getparent_unfold e a :
  etree.getparent e a =
  if existsb (λ c, Nat.eqb (addr c) a) (children e) then Some e
  else etree.first_Some (List.map (λ c, etree.getparent c a) (children e)).
Proof. by destruct e. Qed.

Lemma existsb_addr_false (cs : list element) (a : nat) :
  a ∉ addr <$> cs → existsb (λ c, Nat.eqb (addr c) a) cs = false.
Proof.
  induction cs as [|c cs IH]; simpl; [done|].
  intros [Hc Hcs]%not_elem_of_cons.
  destruct (Nat.eqb_spec (addr c) a) as [Heq|_]; [congruence|]. by apply IH.
Qed.

Lemma existsb_addr_true (cs : list element) (c : element) :
  c ∈ cs → existsb (λ c', Nat.eqb (addr c') (addr c)) cs = true.
Proof.
  induction 1 as [c cs|c d cs _ IH]; simpl.
  - by rewrite Nat.eqb_refl.
  - rewrite IH. apply orb_true_r.
Qed.

(** Only what lies strictly below an element has a parent in it. *)
Lemma getparent_None e a :
  a ∉ flat_map etree.addrs (children e) → etree.getparent e a = None.
Proof.
  induction e as [b t attrs cs IH] using element_tree_ind. simpl.
  intros Ha. rewrite existsb_addr_false; cycle 1.
  { intros Hin. apply Ha. eapply elem_of_sublist; [exact Hin|].
    apply addr_children_sublist. }
  induction IH as [|c cs Hc _ IHcs]; simpl; [done|].
  simpl in Ha. rewrite elem_of_app in Ha.
  rewrite Hc; [apply IHcs; tauto|].
  intros Hin. apply Ha. left. rewrite addrs_unfold. by right.
Qed.

(** In a tree of distinct objects [getparent] finds the parent. *)
Lemma getparent_child doc p c :
  NoDup (etree.addrs doc) → p ∈ etree.descendants doc → c ∈ children p →
  etree.getparent doc (addr c) = Some p.
Proof.
  revert p c. induction doc as [a t attrs cs IH] using element_tree_ind.
  intros p c Hnd Hp Hc. rewrite descendants_unfold in Hp. simpl in Hp.
  apply elem_of_cons in Hp as [->|Hp].
  { rewrite getparent_unfold. simpl. by rewrite existsb_addr_true. }
  rewrite getparent_unfold. simpl.
  rewrite addrs_unfold in Hnd. simpl in Hnd. apply NoDup_cons in Hnd as [_ Hnd].
  apply flat_map_elem_of in Hp as (d & Hd & Hp).
  pose proof (child_addr_below d p c Hp Hc) as Hbelow.
  assert (existsb (λ c', Nat.eqb (addr c') (addr c)) cs = false
          ∧ etree.first_Some (List.map (λ c', etree.getparent c' (addr c)) cs) = Some p)
    as [-> ->]; [|done].
  clear a t attrs.
  induction IH as [|e cs He _ IHcs]; [by apply elem_of_nil in Hd|].
  simpl in Hnd. apply NoDup_app in Hnd as (Hnde & Hdisj & Hndcs).
  simpl. apply elem_of_cons in Hd as [<-|Hd].
  - assert (addr d ≠ addr c) as Hne.
    { intros Heq. rewrite addrs_unfold in Hnde.
      apply NoDup_cons in Hnde as [Hhead _]. apply Hhead. by rewrite Heq. }
    destruct (Nat.eqb_spec (addr d) (addr c)) as [|_]; [done|]. simpl.
    rewrite (He p c) by done. split; [|done].
    apply existsb_addr_false. intros Hin.
    apply (Hdisj (addr c)).
    + rewrite addrs_unfold. by right.
    + eapply elem_of_sublist; [exact Hin | apply addr_children_sublist].
  - assert (addr c ∈ flat_map etree.addrs cs) as Hin.
    { apply flat_map_elem_of. exists d. split; [done|].
      rewrite addrs_unfold. by right. }
    assert (addr c ∉ etree.addrs e) as Hout.
    { intros He'. by apply (Hdisj (addr c)). }
    destruct (Nat.eqb_spec (addr e) (addr c)) as [Heq|_].
    { exfalso. apply Hout. rewrite addrs_unfold, Heq. by left. }
    rewrite getparent_None; cycle 1.
    { intros He'. apply Hout. rewrite addrs_unfold. by right. }
    simpl. by apply IHcs.
Qed.

(** ** Row index *)

Lemma filter_elem_of (p : element → bool) (cs : list element) (x : element) :
  x ∈ List.filter p cs → x ∈ cs ∧ p x = true.
Proof. rewrite !list_elem_of_In. apply filter_In. Qed.

Lemma index_from_lookup (l : list element) (n i : nat) (x : element) :
  NoDup (addr <$> l) → l !! i = Some x →
  etree.index_from n (addr x) l = Ok (n + i).
Proof.
  revert n i. induction l as [|c l IH]; intros n i Hnd Hi; [done|].
  apply NoDup_cons in Hnd as [Hc Hnd]. destruct i as [|i]; simpl in *.
  - injection Hi as ->. rewrite Nat.eqb_refl. f_equal. lia.
  - destruct (Nat.eqb_spec (addr c) (addr x)) as [Heq|_].
    + exfalso. apply Hc. rewrite Heq. apply list_elem_of_fmap_2.
      by eapply list_elem_of_lookup_2.
    + rewrite (IH (S n) i) by done. f_equal. lia.
Qed.

Lemma remove_addr_sublist (a : nat) (cs cs' : list element) :
  etree.remove_addr a cs = Some cs' → cs' `sublist_of` cs.
Proof.
  revert cs'. induction cs as [|c cs IH]; intros cs'; simpl; [done|].
  destruct (Nat.eqb (addr c) a).
  - intros [= <-]. by apply sublist_cons.
  - destruct (etree.remove_addr a cs) as [cs1|]; simpl; [|done].
    intros [= <-]. apply sublist_skip. by apply IH.
Qed.

Lemma remove_addr_elem_of (x : element) (cs : list element) :
  x ∈ cs → is_Some (etree.remove_addr (addr x) cs).
Proof.
  induction 1 as [x cs|x c cs _ IH]; simpl.
  - by rewrite Nat.eqb_refl.
  - destruct (Nat.eqb (addr c) (addr x)); [done|].
    destruct IH as [cs' ->]. done.
Qed.

(** Removing a child removes it from the list of the children of its
    kind, at its position there. *)
Lemma filter_remove_addr (p : element → bool) (cs cs' : list element)
    (j : nat) (r0 : element) :
  NoDup (addr <$> cs) →
  List.filter p cs !! j = Some r0 →
  etree.remove_addr (addr r0) cs = Some cs' →
  List.filter p cs' = delete j (List.filter p cs).
Proof.
  revert j cs'. induction cs as [|c cs IH]; intros j cs' Hnd Hj Hrm; [done|].
  apply NoDup_cons in Hnd as [Hc Hnd]. simpl in Hrm, Hj |- *.
  assert (∀ k, List.filter p cs !! k = Some r0 → addr c ≠ addr r0) as Hlater.
  { intros k Hk Heq. apply Hc. rewrite Heq. apply list_elem_of_fmap_2.
    apply list_elem_of_lookup_2 in Hk. by apply filter_elem_of in Hk as [? _]. }
  destruct (Nat.eqb_spec (addr c) (addr r0)) as [Heq|Hne].
  - injection Hrm as <-. destruct (p c).
    + destruct j as [|j]; [done|]. by destruct (Hlater j Hj).
    + by destruct (Hlater j Hj).
  - destruct (etree.remove_addr (addr r0) cs) as [cs1|] eqn:Hcs1; simpl in Hrm; [|done].
    injection Hrm as <-. simpl. destruct (p c).
    + destruct j as [|j]; simpl in *.
      * injection Hj as ->. done.
      * f_equal. by apply IH.
    + by apply IH.
Qed.

Lemma tr_idx_lookup (doc tbl tr : element) (i : nat) :
  NoDup (etree.addrs doc) →
  tbl ∈ etree.descendants doc →
  tag tbl = "w:tbl" →
  CT_Tbl.tr_lst tbl !! i = Some tr →
  CT_Row.tr_idx doc tr = Ok i.
Proof.
  intros Hnd Htbl Htag Hi. unfold CT_Row.tr_idx.
  assert (tr ∈ children tbl) as Htr.
  { apply list_elem_of_lookup_2 in Hi. by apply filter_elem_of in Hi as [? _]. }
  rewrite (getparent_child doc tbl tr Hnd Htbl Htr), Htag. simpl.
  unfold etree.index. rewrite (index_from_lookup _ 0 i); [done| |done].
  eapply sublist_NoDup; [|apply addr_filter_sublist].
  apply children_NoDup. by eapply descendants_NoDup.
Qed.

(** C8.  In a document of distinct objects the row index of a row is its
    position among the rows of its parent table (the first row has index
    0), looked up at the time of the call: after another row of the
    table has been removed, the index is one less when the removed row
    came before it, and the same when it came after. *)
Theorem tr_idx_is_rank (doc tbl tr : element) (i : nat) :
  NoDup (etree.addrs doc) →
  tbl ∈ etree.descendants doc →
  tag tbl = "w:tbl" →
  CT_Tbl.tr_lst tbl !! i = Some tr →
  CT_Row.tr_idx doc tr = Ok i
  ∧ ∀ (j : nat) (r0 : element),
      CT_Tbl.tr_lst tbl !! j = Some r0 → j ≠ i →
      ∃ tbl',
        etree.remove tbl r0 = Ok tbl'
        ∧ CT_Tbl.tr_lst tbl' = delete j (CT_Tbl.tr_lst tbl)
        ∧ ∀ doc',
            NoDup (etree.addrs doc') →
            tbl' ∈ etree.descendants doc' →
            CT_Row.tr_idx doc' tr = Ok (if decide (j < i) then i - 1 else i).
Proof.
  intros Hnd Htbl Htag Hi. split; [by apply (tr_idx_lookup doc tbl)|].
  intros j r0 Hj Hne.
  assert (r0 ∈ children tbl) as Hin.
  { apply list_elem_of_lookup_2 in Hj. by apply filter_elem_of in Hj as [? _]. }
  destruct (remove_addr_elem_of r0 _ Hin) as [cs' Hcs'].
  exists (etree.set_children tbl cs').
  assert (CT_Tbl.tr_lst (etree.set_children tbl cs') = delete j (CT_Tbl.tr_lst tbl))
    as Hrows.
  { apply (filter_remove_addr _ (children tbl) cs' j r0); [|done|done].
    apply children_NoDup. by eapply descendants_NoDup. }
  split; [|split; [done|]].
  { unfold etree.remove. by rewrite Hcs'. }
  intros doc' Hnd' Htbl'.
  apply (tr_idx_lookup doc' (etree.set_children tbl cs')); [done|done|done|].
  rewrite Hrows. case_decide as Hlt.
  - rewrite list_lookup_delete_ge by lia.
    by replace (S (i - 1)) with i by lia.
  - rewrite list_lookup_delete_lt by lia. done.
Qed.

(** The example of the specification: a table with the rows r0, r1 and
    r2, three empty rows that differ in nothing but their identity,
    inside a document body. *)
Lemma tr_idx_is_rank_witness :
  let r0 := Element 5 "w:tr" ∅ [] in
  let r1 := Element 6 "w:tr" ∅ [] in
  let r2 := Element 7 "w:tr" ∅ [] in
  let tblPr := Element 3 "w:tblPr" ∅ [] in
  let tblGrid := Element 4 "w:tblGrid" ∅ [] in
  let tbl := Element 2 "w:tbl" ∅ [tblPr; tblGrid; r0; r1; r2] in
  let tbl' := Element 2 "w:tbl" ∅ [tblPr; tblGrid; r1; r2] in
  let doc := Element 0 "w:body" ∅ [Element 1 "w:p" ∅ []; tbl] in
  let doc' := Element 0 "w:body" ∅ [Element 1 "w:p" ∅ []; tbl'] in
  CT_Row.tr_idx doc r1 = Ok 1
  ∧ etree.remove tbl r0 = Ok tbl'
  ∧ CT_Row.tr_idx doc' r1 = Ok 0.
Proof.
  intros r0 r1 r2 tblPr tblGrid tbl tbl' doc doc'.
  assert (NoDup (etree.addrs doc)) as Hnd.
  { apply (bool_decide_unpack _). vm_compute. exact I. }
  assert (NoDup (etree.addrs doc')) as Hnd'.
  { apply (bool_decide_unpack _). vm_compute. exact I. }
  assert (tbl ∈ etree.descendants doc) as Htbl.
  { simpl. right. right. left. }
  assert (tbl' ∈ etree.descendants doc') as Htbl'.
  { simpl. right. right. left. }
  destruct (tr_idx_is_rank doc tbl r1 1 Hnd Htbl eq_refl eq_refl) as [Hidx Hdel].
  split; [exact Hidx|].
  destruct (Hdel 0 r0 eq_refl) as (x & Hrm & _ & Hidx'); [lia|].
  vm_compute in Hrm. injection Hrm as <-.
  split; [reflexivity|]. by apply (Hidx' doc').
Defined.

(** * Further properties of the element classes *)

(** ** Children of one kind *)

Lemma find_head_findall self t : etree.find self t = head (etree.findall self t).
Proof.
  unfold etree.find, etree.findall.
  induction (children self) as [|c cs IH]; simpl; [done|].
  destruct (String.eqb (tag c) t); simpl; [done|].
  rewrite <- IH. by destruct (etree.find_pos t cs).
Qed.

Lemma findall_insert_element_before self new succs t :
  etree.findall (xmlchemy.insert_element_before self new succs) t
  = if String.eqb (tag new) t
    then match xmlchemy.first_child_found_in self succs with
         | Some i => List.filter (λ c, String.eqb (tag c) t) (take i (children self))
                     ++ new :: List.filter (λ c, String.eqb (tag c) t)
                                 (drop i (children self))
         | None => etree.findall self t ++ [new]
         end
    else etree.findall self t.
Proof.
  unfold xmlchemy.insert_element_before, etree.findall.
  destruct (xmlchemy.first_child_found_in self succs) as [i|]; simpl.
  - rewrite List.filter_app. simpl.
    destruct (String.eqb (tag new) t); [done|].
    by rewrite <- List.filter_app, take_drop.
  - rewrite List.filter_app. simpl.
    destruct (String.eqb (tag new) t); [done|]. by rewrite app_nil_r.
Qed.

Lemma findall_insert_other self new succs t :
  tag new ≠ t →
  etree.findall (xmlchemy.insert_element_before self new succs) t
  = etree.findall self t.
Proof.
  intros Hne. rewrite findall_insert_element_before.
  by destruct (String.eqb_spec (tag new) t).
Qed.

Lemma findall_insert_new self new succs t :
  tag new = t → etree.findall self t = [] →
  etree.findall (xmlchemy.insert_element_before self new succs) t = [new].
Proof.
  intros Htag Hnone. rewrite findall_insert_element_before.
  destruct (String.eqb_spec (tag new) t) as [_|]; [|done].
  unfold etree.findall in *.
  destruct (xmlchemy.first_child_found_in self succs) as [i|].
  - rewrite <- (take_drop i (children self)), List.filter_app in Hnone.
    apply app_eq_nil in Hnone as [-> ->]. done.
  - by rewrite Hnone.
Qed.

Lemma findall_get_or_add_other t succs a self t' :
  t ≠ t' →
  etree.findall (xmlchemy.ZeroOrOne_get_or_add t succs a self) t'
  = etree.findall self t'.
Proof.
  intros Hne. unfold xmlchemy.ZeroOrOne_get_or_add, xmlchemy.ZeroOrOne_add,
    xmlchemy.ZeroOrOne_insert.
  destruct (xmlchemy.ZeroOrOne_get t self); [done|].
  by apply findall_insert_other.
Qed.

Lemma findall_get_or_add t succs a self :
  etree.findall (xmlchemy.ZeroOrOne_get_or_add t succs a self) t
  = match etree.findall self t with
    | [] => [etree.OxmlElement a t]
    | l => l
    end.
Proof.
  unfold xmlchemy.ZeroOrOne_get_or_add, xmlchemy.ZeroOrOne_get,
    xmlchemy.ZeroOrOne_add, xmlchemy.ZeroOrOne_insert.
  rewrite find_head_findall.
  destruct (etree.findall self t) as [|c l] eqn:Hall; simpl; [|by rewrite Hall].
  by apply findall_insert_new.
Qed.

Lemma filter_modify_first_other t t' f cs :
  (∀ c, tag (f c) = tag c) → t ≠ t' →
  List.filter (λ c, String.eqb (tag c) t') (etree.modify_first t f cs)
  = List.filter (λ c, String.eqb (tag c) t') cs.
Proof.
  intros Hf Hne. induction cs as [|c cs IH]; simpl; [done|].
  destruct (String.eqb_spec (tag c) t) as [Heq|_]; simpl.
  - rewrite Hf. destruct (String.eqb_spec (tag c) t') as [|_]; [congruence|done].
  - by rewrite IH.
Qed.

Lemma filter_modify_first t f cs :
  (∀ c, tag (f c) = tag c) →
  List.filter (λ c, String.eqb (tag c) t) (etree.modify_first t f cs)
  = match List.filter (λ c, String.eqb (tag c) t) cs with
    | [] => []
    | c :: l => f c :: l
    end.
Proof.
  intros Hf. induction cs as [|c cs IH]; simpl; [done|].
  destruct (String.eqb_spec (tag c) t) as [Heq|Hne]; simpl.
  - by rewrite Hf, <- Heq, String.eqb_refl.
  - destruct (String.eqb_spec (tag c) t) as [|_]; [done|]. apply IH.
Qed.

Lemma findall_modify_child_other self t t' f :
  (∀ c, tag (f c) = tag c) → t ≠ t' →
  etree.findall (etree.modify_child self t f) t' = etree.findall self t'.
Proof. intros. by apply filter_modify_first_other. Qed.

Lemma findall_modify_child self t f :
  (∀ c, tag (f c) = tag c) →
  etree.findall (etree.modify_child self t f) t
  = match etree.findall self t with
    | [] => []
    | c :: l => f c :: l
    end.
Proof. intros. by apply filter_modify_first. Qed.

Lemma tag_modify_first t f cs :
  (∀ c, tag (f c) = tag c) → tag <$> etree.modify_first t f cs = tag <$> cs.
Proof.
  intros Hf. induction cs as [|c cs IH]; simpl; [done|].
  destruct (String.eqb (tag c) t); rewrite !fmap_cons; f_equal; auto.
Qed.

Lemma modify_first_twice t f g cs :
  (∀ c, tag (f c) = tag c) →
  etree.modify_first t g (etree.modify_first t f cs)
  = etree.modify_first t (g ∘ f) cs.
Proof.
  intros Hf. induction cs as [|c cs IH]; simpl; [done|].
  destruct (String.eqb_spec (tag c) t) as [Heq|Hne]; simpl.
  - by rewrite Hf, <- Heq, String.eqb_refl.
  - destruct (String.eqb_spec (tag c) t) as [|_]; [done|]. by rewrite IH.
Qed.

Lemma modify_first_ext t f g cs :
  (∀ c, f c = g c) → etree.modify_first t f cs = etree.modify_first t g cs.
Proof.
  intros Hfg. induction cs as [|c cs IH]; simpl; [done|].
  destruct (String.eqb (tag c) t); [by rewrite Hfg | by rewrite IH].
Qed.

Lemma findall_remove self t :
  etree.findall (xmlchemy.ZeroOrOne_remove t self) t = [].
Proof.
  unfold etree.findall, xmlchemy.ZeroOrOne_remove. simpl.
  induction (children self) as [|c cs IH]; simpl; [done|].
  destruct (String.eqb (tag c) t) eqn:Hc; simpl; [done|]. by rewrite Hc.
Qed.

Lemma findall_remove_other self t t' :
  t ≠ t' →
  etree.findall (xmlchemy.ZeroOrOne_remove t self) t' = etree.findall self t'.
Proof.
  intros Hne. unfold etree.findall, xmlchemy.ZeroOrOne_remove. simpl.
  induction (children self) as [|c cs IH]; simpl; [done|].
  destruct (String.eqb_spec (tag c) t) as [Heq|_]; simpl.
  - destruct (String.eqb_spec (tag c) t') as [|_]; [congruence|done].
  - by rewrite IH.
Qed.

Lemma findall_nil_absent self t :
  etree.findall self t = [] ↔ t ∉ tag <$> children self.
Proof.
  rewrite <- find_None, find_head_findall.
  by destruct (etree.findall self t).
Qed.

Lemma filter_sublist (p : element → bool) (cs : list element) :
  List.filter p cs `sublist_of` cs.
Proof.
  induction cs as [|c cs IH]; simpl; [constructor|].
  destruct (p c); by constructor.
Qed.

(** ** Table properties: style and layout *)

Lemma set_style_findall_tblStyle a tblPr value :
  etree.findall (CT_TblPr.set_style a tblPr value) "w:tblStyle"
  = match value with
    | Some v => [CT_String.set_val (etree.OxmlElement a "w:tblStyle") v]
    | None => []
    end.
Proof.
  unfold CT_TblPr.set_style, CT_TblPr._remove_tblStyle, CT_TblPr._add_tblStyle,
    xmlchemy.ZeroOrOne_insert.
  destruct value as [v|]; [|apply findall_remove].
  apply findall_insert_new; [done | apply findall_remove].
Qed.

Lemma set_style_findall_other a tblPr value t :
  t ≠ "w:tblStyle" →
  etree.findall (CT_TblPr.set_style a tblPr value) t = etree.findall tblPr t.
Proof.
  intros Hne. unfold CT_TblPr.set_style, CT_TblPr._remove_tblStyle,
    CT_TblPr._add_tblStyle, xmlchemy.ZeroOrOne_insert.
  destruct value as [v|].
  - rewrite findall_insert_other by (simpl; congruence).
    by apply findall_remove_other.
  - by apply findall_remove_other.
Qed.

(** X1.  Writing a style name and reading the style returns that name,
    and writing [None] makes the read [None].  After the write the
    table properties hold exactly one style child, or none for [None],
    however many they held before; the children of every other kind are
    the same as before, and the layout mode reads as before. *)
Theorem style_write_then_read (a : nat) (tblPr : element) (value : option string) :
  CT_TblPr.style (CT_TblPr.set_style a tblPr value) = Ok value
  ∧ length (etree.findall (CT_TblPr.set_style a tblPr value) "w:tblStyle")
    = match value with Some _ => 1 | None => 0 end
  ∧ (∀ t, t ≠ "w:tblStyle" →
       etree.findall (CT_TblPr.set_style a tblPr value) t = etree.findall tblPr t)
  ∧ CT_TblPr.autofit (CT_TblPr.set_style a tblPr value) = CT_TblPr.autofit tblPr.
Proof.
  split; [|split; [|split]].
  - unfold CT_TblPr.style, CT_TblPr.tblStyle, xmlchemy.ZeroOrOne_get.
    rewrite find_head_findall, set_style_findall_tblStyle.
    destruct value as [v|]; simpl; [|done].
    unfold CT_String.val, CT_String.set_val, xmlchemy.RequiredAttribute_get,
      xmlchemy.RequiredAttribute_set.
    by rewrite get_set_eq.
  - rewrite set_style_findall_tblStyle. by destruct value.
  - intros t Ht. by apply set_style_findall_other.
  - unfold CT_TblPr.autofit, CT_TblPr.tblLayout, xmlchemy.ZeroOrOne_get.
    by rewrite !find_head_findall, set_style_findall_other.
Qed.

Lemma set_type_twice l x y :
  CT_TblLayoutType.set_type (CT_TblLayoutType.set_type l x) y
  = CT_TblLayoutType.set_type l y.
Proof.
  unfold CT_TblLayoutType.set_type, xmlchemy.OptionalAttribute_set, etree.set.
  simpl. by rewrite insert_insert_eq.
Qed.

Lemma set_autofit_findall_other a tblPr b t :
  t ≠ "w:tblLayout" →
  etree.findall (CT_TblPr.set_autofit a tblPr b) t = etree.findall tblPr t.
Proof.
  intros Hne. unfold CT_TblPr.set_autofit, CT_TblPr.get_or_add_tblLayout.
  rewrite findall_modify_child_other by done.
  by apply findall_get_or_add_other.
Qed.

(** X2.  A second write of the layout mode overwrites the first: the
    table properties are the same tree as after the second write alone,
    so writing the same value twice changes nothing.  A write adds a
    layout child only when there was none, leaves the children of every
    other kind as they were, and the style reads as before. *)
Theorem autofit_second_write (a a' : nat) (tblPr : element) (b b' : bool) :
  CT_TblPr.set_autofit a' (CT_TblPr.set_autofit a tblPr b) b'
  = CT_TblPr.set_autofit a tblPr b'
  ∧ length (etree.findall (CT_TblPr.set_autofit a tblPr b) "w:tblLayout")
    = length (etree.findall tblPr "w:tblLayout") `max` 1
  ∧ (∀ t, t ≠ "w:tblLayout" →
       etree.findall (CT_TblPr.set_autofit a tblPr b) t = etree.findall tblPr t)
  ∧ CT_TblPr.style (CT_TblPr.set_autofit a tblPr b) = CT_TblPr.style tblPr.
Proof.
  split; [|split; [|split]].
  - unfold CT_TblPr.set_autofit at 1.
    assert (CT_TblPr.get_or_add_tblLayout a' (CT_TblPr.set_autofit a tblPr b)
            = CT_TblPr.set_autofit a tblPr b) as ->.
    { unfold CT_TblPr.get_or_add_tblLayout, xmlchemy.ZeroOrOne_get_or_add,
        xmlchemy.ZeroOrOne_get.
      pose proof (set_autofit_tblLayout a tblPr b) as Hl.
      unfold CT_TblPr.tblLayout, xmlchemy.ZeroOrOne_get in Hl. by rewrite Hl. }
    unfold CT_TblPr.set_autofit, etree.modify_child. simpl.
    rewrite modify_first_twice by done. f_equal.
    apply modify_first_ext. intros c. apply set_type_twice.
  - unfold CT_TblPr.set_autofit, CT_TblPr.get_or_add_tblLayout.
    rewrite findall_modify_child by done. rewrite findall_get_or_add.
    destruct (etree.findall tblPr "w:tblLayout"); simpl; lia.
  - intros t Ht. by apply set_autofit_findall_other.
  - unfold CT_TblPr.style, CT_TblPr.tblStyle, xmlchemy.ZeroOrOne_get.
    by rewrite !find_head_findall, set_autofit_findall_other.
Qed.

Lemma tblPr_tag_seq_NoDup : NoDup tblPr_tag_seq.
Proof. apply (bool_decide_unpack _). vm_compute. exact I. Qed.

Lemma in_tblPr_order_sublist self :
  in_tblPr_order self ↔ tag <$> children self `sublist_of` tblPr_tag_seq.
Proof. apply is_subsequence_sublist. Qed.

(** A tag that heads its own list of successors does no harm when no
    child carries it. *)
Lemma insert_before_own_tag self new t post :
  t ∉ tag <$> children self →
  xmlchemy.insert_element_before self new (t :: post)
  = xmlchemy.insert_element_before self new post.
Proof.
  intros Habsent. unfold xmlchemy.insert_element_before. simpl.
  by apply find_pos_None in Habsent as ->.
Qed.

Lemma get_or_add_tblLayout_in_order a tblPr :
  in_tblPr_order tblPr → in_tblPr_order (CT_TblPr.get_or_add_tblLayout a tblPr).
Proof.
  intros Hord. unfold CT_TblPr.get_or_add_tblLayout, xmlchemy.ZeroOrOne_get_or_add,
    xmlchemy.ZeroOrOne_get.
  destruct (etree.find tblPr "w:tblLayout") as [l|] eqn:Hfind; [done|].
  apply find_None in Hfind. apply in_tblPr_order_sublist in Hord.
  unfold xmlchemy.ZeroOrOne_add, xmlchemy.ZeroOrOne_insert.
  change CT_TblPr.tblLayout_successors with ("w:tblLayout" :: drop 13 tblPr_tag_seq).
  rewrite insert_before_own_tag by done.
  destruct (insert_element_before_placement
              (take 12 tblPr_tag_seq) (drop 13 tblPr_tag_seq) "w:tblLayout"
              tblPr_tag_seq_NoDup tblPr
              (xmlchemy.ZeroOrOne_new "w:tblLayout" a) Hord Hfind)
    as (before & after & _ & Hnew & Hbefore & Hafter).
  apply in_tblPr_order_sublist. rewrite Hnew, fmap_app, fmap_cons.
  change tblPr_tag_seq
    with (take 12 tblPr_tag_seq ++ "w:tblLayout" :: drop 13 tblPr_tag_seq).
  apply sublist_app; [done|]. by apply sublist_skip.
Qed.

(** X3.  The writes of the layout mode and of the style keep the
    children of table properties in schema order (the style reference,
    then its declared successors in their order), although the layout
    child names its own tag among its successors; and a style that is
    written becomes the first child. *)
Theorem tblPr_writes_keep_schema_order (a : nat) (tblPr : element) :
  in_tblPr_order tblPr →
  (∀ b, in_tblPr_order (CT_TblPr.set_autofit a tblPr b))
  ∧ (∀ value, in_tblPr_order (CT_TblPr.set_style a tblPr value))
  ∧ (∀ v, head (children (CT_TblPr.set_style a tblPr (Some v)))
          = Some (CT_String.set_val (etree.OxmlElement a "w:tblStyle") v)).
Proof.
  intros Hord.
  assert (tag <$> children (CT_TblPr._remove_tblStyle tblPr)
          `sublist_of` tblPr_tag_seq) as Hremoved.
  { apply in_tblPr_order_sublist in Hord. etrans; [|exact Hord].
    apply fmap_sublist, filter_sublist. }
  assert (∀ v, ∃ after,
            children (CT_TblPr.set_style a tblPr (Some v))
            = CT_String.set_val (etree.OxmlElement a "w:tblStyle") v :: after
            ∧ tag <$> after `sublist_of` CT_TblPr.tblStyle_successors) as Hstyle.
  { intros v. unfold CT_TblPr.set_style, CT_TblPr._add_tblStyle,
      xmlchemy.ZeroOrOne_insert, xmlchemy.ZeroOrOne_new. cbv zeta.
    destruct (insert_element_before_placement
                [] CT_TblPr.tblStyle_successors "w:tblStyle"
                tblPr_tag_seq_NoDup (CT_TblPr._remove_tblStyle tblPr)
                (CT_String.set_val (etree.OxmlElement a "w:tblStyle") v) Hremoved)
      as (before & after & _ & Hnew & Hbefore & Hafter).
    { apply findall_nil_absent, findall_remove. }
    apply sublist_nil_r in Hbefore. apply fmap_nil_inv in Hbefore as ->.
    exists after. by rewrite Hnew. }
  split; [|split].
  - intros b. apply in_tblPr_order_sublist.
    unfold CT_TblPr.set_autofit, etree.modify_child. simpl.
    rewrite tag_modify_first by done.
    by apply in_tblPr_order_sublist, get_or_add_tblLayout_in_order.
  - intros [v|]; apply in_tblPr_order_sublist; [|exact Hremoved].
    destruct (Hstyle v) as (after & -> & Hafter).
    rewrite fmap_cons. by apply sublist_skip.
  - intros v. by destruct (Hstyle v) as (after & -> & _).
Qed.

(** The table properties of a new table, given a style and then a fixed
    layout: style, width, layout. *)
Lemma tblPr_writes_keep_schema_order_witness :
  let tblPr := Element 1 "w:tblPr" ∅ [Element 2 "w:tblW" ∅ []] in
  tag <$> children (CT_TblPr.set_autofit 4 (CT_TblPr.set_style 3 tblPr (Some "Grid")) false)
  = ["w:tblStyle"; "w:tblW"; "w:tblLayout"]
  ∧ in_tblPr_order (CT_TblPr.set_autofit 4 (CT_TblPr.set_style 3 tblPr (Some "Grid")) false).
Proof.
  intros tblPr. split; [reflexivity|].
  assert (in_tblPr_order tblPr) as H0 by reflexivity.
  destruct (tblPr_writes_keep_schema_order 3 tblPr H0) as (_ & H1 & _).
  destruct (tblPr_writes_keep_schema_order 4 _ (H1 (Some "Grid"))) as (H2 & _).
  apply H2.
Defined.

(** ** Cell properties and cells: what a width write leaves alone *)

Lemma set_width_twice tcW W W' :
  CT_TblWidth.set_width (CT_TblWidth.set_width tcW W) W'
  = CT_TblWidth.set_width tcW W'.
Proof.
  unfold CT_TblWidth.set_width, CT_TblWidth.set_w, CT_TblWidth.set_type,
    xmlchemy.RequiredAttribute_set, etree.set. simpl. f_equal.
  rewrite (insert_insert_ne _ "w:type" "w:w") by done.
  by rewrite !insert_insert_eq.
Qed.

Lemma tcPr_set_width_findall_other a tcPr W t :
  t ≠ "w:tcW" →
  etree.findall (CT_TcPr.set_width a tcPr W) t = etree.findall tcPr t.
Proof.
  intros Hne. unfold CT_TcPr.set_width, CT_TcPr.get_or_add_tcW.
  rewrite findall_modify_child_other by done.
  by apply findall_get_or_add_other.
Qed.

Lemma tcPr_set_width_grid_span a tcPr W :
  CT_TcPr.grid_span (CT_TcPr.set_width a tcPr W) = CT_TcPr.grid_span tcPr.
Proof.
  unfold CT_TcPr.grid_span, CT_TcPr.gridSpan, xmlchemy.ZeroOrOne_get.
  by rewrite !find_head_findall, tcPr_set_width_findall_other.
Qed.

Lemma tcPr_set_width_vMerge_val a tcPr W :
  CT_TcPr.vMerge_val (CT_TcPr.set_width a tcPr W) = CT_TcPr.vMerge_val tcPr.
Proof.
  unfold CT_TcPr.vMerge_val, CT_TcPr.vMerge, xmlchemy.ZeroOrOne_get.
  by rewrite !find_head_findall, tcPr_set_width_findall_other.
Qed.

Lemma tcPr_set_width_in_schema_order a tcPr W :
  in_schema_order tcPr → in_schema_order (CT_TcPr.set_width a tcPr W).
Proof.
  intros Hord. unfold in_schema_order, CT_TcPr.set_width, etree.modify_child.
  simpl. rewrite tag_modify_first by done.
  apply (get_or_add_child_in_schema_order TcW a tcPr Hord).
Qed.

(** X4.  A width write on Cell Properties keeps children that are in
    schema order in schema order, adds a width child only when there was
    none, and leaves the children of every other kind, the grid span and
    the vertical-merge state as they were; a second write leaves the
    same tree as that write alone. *)
Theorem tcPr_width_write_frame (a a' : nat) (tcPr : element) (W W' : Z) :
  (in_schema_order tcPr → in_schema_order (CT_TcPr.set_width a tcPr W))
  ∧ length (etree.findall (CT_TcPr.set_width a tcPr W) "w:tcW")
    = length (etree.findall tcPr "w:tcW") `max` 1
  ∧ (∀ t, t ≠ "w:tcW" →
       etree.findall (CT_TcPr.set_width a tcPr W) t = etree.findall tcPr t)
  ∧ CT_TcPr.grid_span (CT_TcPr.set_width a tcPr W) = CT_TcPr.grid_span tcPr
  ∧ CT_TcPr.vMerge_val (CT_TcPr.set_width a tcPr W) = CT_TcPr.vMerge_val tcPr
  ∧ CT_TcPr.set_width a' (CT_TcPr.set_width a tcPr W) W'
    = CT_TcPr.set_width a tcPr W'.
Proof.
  split; [|split; [|split; [|split; [|split]]]].
  - apply tcPr_set_width_in_schema_order.
  - unfold CT_TcPr.set_width, CT_TcPr.get_or_add_tcW.
    rewrite findall_modify_child by done. rewrite findall_get_or_add.
    destruct (etree.findall tcPr "w:tcW"); simpl; lia.
  - intros t Ht. by apply tcPr_set_width_findall_other.
  - apply tcPr_set_width_grid_span.
  - apply tcPr_set_width_vMerge_val.
  - unfold CT_TcPr.set_width at 1.
    assert (CT_TcPr.get_or_add_tcW a' (CT_TcPr.set_width a tcPr W)
            = CT_TcPr.set_width a tcPr W) as ->.
    { unfold CT_TcPr.get_or_add_tcW, xmlchemy.ZeroOrOne_get_or_add,
        xmlchemy.ZeroOrOne_get.
      assert (is_Some (etree.find (CT_TcPr.set_width a tcPr W) "w:tcW")) as [c ->];
        [|done].
      unfold CT_TcPr.set_width, CT_TcPr.get_or_add_tcW.
      rewrite find_modify_child by done. by rewrite find_get_or_add. }
    unfold CT_TcPr.set_width, etree.modify_child. simpl.
    rewrite modify_first_twice by done. f_equal.
    apply modify_first_ext. intros c. apply set_width_twice.
Qed.

Lemma tcPr_width_write_frame_witness :
  let tcPr := Element 1 "w:tcPr" ∅
                [ Element 2 "w:gridSpan" (<["w:val" := "2"]> ∅) [];
                  Element 3 "w:vMerge" ∅ [] ] in
  tag <$> children (CT_TcPr.set_width 4 tcPr 914400) = ["w:tcW"; "w:gridSpan"; "w:vMerge"]
  ∧ in_schema_order (CT_TcPr.set_width 4 tcPr 914400)
  ∧ CT_TcPr.grid_span (CT_TcPr.set_width 4 tcPr 914400) = Ok 2%Z.
Proof.
  intros tcPr.
  destruct (tcPr_width_write_frame 4 4 tcPr 914400 0) as (Hord & _ & _ & Hspan & _).
  split; [reflexivity|]. split; [by apply Hord|]. by rewrite Hspan.
Defined.

Lemma tc_get_or_add_tcPr_findall_other a tc t :
  t ≠ "w:tcPr" →
  etree.findall (CT_Tc.get_or_add_tcPr a tc) t = etree.findall tc t.
Proof.
  intros Hne. unfold CT_Tc.get_or_add_tcPr.
  destruct (CT_Tc.tcPr tc); [done|].
  unfold CT_Tc._add_tcPr, CT_Tc._insert_tcPr, etree.findall, etree.insert.
  cbn -[String.eqb]. rewrite take_0, drop_0. cbn -[String.eqb].
  by destruct (String.eqb_spec "w:tcPr" t) as [|_]; [congruence|].
Qed.

Lemma tc_get_or_add_tcPr_findall a tc :
  etree.findall (CT_Tc.get_or_add_tcPr a tc) "w:tcPr"
  = match etree.findall tc "w:tcPr" with
    | [] => [etree.OxmlElement a "w:tcPr"]
    | l => l
    end.
Proof.
  unfold CT_Tc.get_or_add_tcPr, CT_Tc.tcPr, xmlchemy.ZeroOrOne_get.
  rewrite find_head_findall.
  destruct (etree.findall tc "w:tcPr") as [|c l] eqn:Hall; cbn [head]; [|by rewrite Hall].
  unfold CT_Tc._add_tcPr, CT_Tc._insert_tcPr, etree.findall, etree.insert in *.
  cbn -[String.eqb]. rewrite ?take_0, ?drop_0. cbn. by rewrite Hall.
Qed.

Lemma tc_get_or_add_tcPr_find a tc :
  etree.find (CT_Tc.get_or_add_tcPr a tc) "w:tcPr"
  = Some (default (etree.OxmlElement a "w:tcPr") (CT_Tc.tcPr tc)).
Proof.
  unfold CT_Tc.get_or_add_tcPr, CT_Tc.tcPr, xmlchemy.ZeroOrOne_get.
  destruct (etree.find tc "w:tcPr") as [c|] eqn:Hfind; simpl; [done|].
  unfold CT_Tc._add_tcPr, CT_Tc._insert_tcPr. by rewrite find_insert_0.
Qed.

Lemma tc_set_width_tcPr a b tc W :
  CT_Tc.tcPr (CT_Tc.set_width a b tc W)
  = Some (CT_TcPr.set_width b (default (etree.OxmlElement a "w:tcPr") (CT_Tc.tcPr tc)) W).
Proof.
  unfold CT_Tc.set_width. unfold CT_Tc.tcPr at 1. unfold xmlchemy.ZeroOrOne_get.
  rewrite find_modify_child by (intros; apply tcPr_set_width_tag).
  by rewrite tc_get_or_add_tcPr_find.
Qed.

(** X5.  A width write on a cell without Cell Properties puts the new
    Cell Properties first and leaves the former children after it, in
    their order.  On every cell it adds Cell Properties only when there
    were none and leaves the paragraphs, the nested tables, the grid
    span and the vertical-merge state as they were. *)
Theorem tc_width_write_frame (a b : nat) (tc : element) (W : Z) :
  (CT_Tc.tcPr tc = None →
     children (CT_Tc.set_width a b tc W)
     = CT_TcPr.set_width b (etree.OxmlElement a "w:tcPr") W :: children tc)
  ∧ length (etree.findall (CT_Tc.set_width a b tc W) "w:tcPr")
    = length (etree.findall tc "w:tcPr") `max` 1
  ∧ CT_Tc.p_lst (CT_Tc.set_width a b tc W) = CT_Tc.p_lst tc
  ∧ CT_Tc.tbl_lst (CT_Tc.set_width a b tc W) = CT_Tc.tbl_lst tc
  ∧ CT_Tc.grid_span (CT_Tc.set_width a b tc W) = CT_Tc.grid_span tc
  ∧ CT_Tc.vMerge (CT_Tc.set_width a b tc W) = CT_Tc.vMerge tc.
Proof.
  assert (∀ t, t ≠ "w:tcPr" →
            etree.findall (CT_Tc.set_width a b tc W) t = etree.findall tc t) as Hother.
  { intros t Ht. unfold CT_Tc.set_width.
    rewrite findall_modify_child_other
      by (done || intros; apply tcPr_set_width_tag).
    by apply tc_get_or_add_tcPr_findall_other. }
  split; [|split; [|split; [|split; [|split]]]].
  - intros Hnone. unfold CT_Tc.set_width, CT_Tc.get_or_add_tcPr. rewrite Hnone.
    unfold CT_Tc._add_tcPr, CT_Tc._insert_tcPr, etree.modify_child, etree.insert.
    cbn. by rewrite ?take_0, ?drop_0.
  - unfold CT_Tc.set_width.
    rewrite findall_modify_child by (intros; apply tcPr_set_width_tag).
    rewrite tc_get_or_add_tcPr_findall.
    destruct (etree.findall tc "w:tcPr"); simpl; lia.
  - by apply Hother.
  - by apply Hother.
  - unfold CT_Tc.grid_span. rewrite tc_set_width_tcPr, tcPr_set_width_grid_span.
    by destruct (CT_Tc.tcPr tc).
  - unfold CT_Tc.vMerge. rewrite tc_set_width_tcPr, tcPr_set_width_vMerge_val.
    by destruct (CT_Tc.tcPr tc).
Qed.

Lemma tc_width_write_frame_witness :
  tag <$> children (CT_Tc.set_width 2 3 (CT_Tc.new 0) 914400) = ["w:tcPr"; "w:p"]
  ∧ children (CT_Tc.set_width 2 3 (CT_Tc.new 0) 914400)
    = CT_TcPr.set_width 3 (etree.OxmlElement 2 "w:tcPr") 914400
      :: children (CT_Tc.new 0).
Proof.
  destruct (tc_width_write_frame 2 3 (CT_Tc.new 0) 914400) as (H & _).
  split; [reflexivity|]. by apply H.
Defined.

(** ** Cells: clearing the content and reading the grid span *)

Lemma clear_content_tcPr tc :
  CT_Tc.tcPr (CT_Tc.clear_content tc) = CT_Tc.tcPr tc.
Proof.
  unfold CT_Tc.clear_content, CT_Tc.tcPr, xmlchemy.ZeroOrOne_get.
  destruct (etree.find tc "w:tcPr") as [tcPr|] eqn:Hfind; [|done].
  apply find_Some in Hfind as (before & after & _ & Htag & _).
  apply (find_app_here _ "w:tcPr" [] tcPr []); [done | apply not_elem_of_nil | done].
Qed.

(** X6.  Clearing the content of a cell twice is clearing it once, and
    clearing does not change what the cell reads as its width, grid span
    and vertical-merge state; a width written before the clearing is
    still read after it. *)
Theorem clear_content_frame (a b : nat) (tc : element) (W : Z) :
  CT_Tc.clear_content (CT_Tc.clear_content tc) = CT_Tc.clear_content tc
  ∧ CT_Tc.width (CT_Tc.clear_content tc) = CT_Tc.width tc
  ∧ CT_Tc.grid_span (CT_Tc.clear_content tc) = CT_Tc.grid_span tc
  ∧ CT_Tc.vMerge (CT_Tc.clear_content tc) = CT_Tc.vMerge tc
  ∧ CT_Tc.width (CT_Tc.clear_content (CT_Tc.set_width a b tc W))
    = Ok (Some (shared.Twips (shared.twips (shared.Emu W)))).
Proof.
  assert (∀ c, CT_Tc.width (CT_Tc.clear_content c) = CT_Tc.width c) as Hwidth.
  { intros c. unfold CT_Tc.width. by rewrite clear_content_tcPr. }
  split; [|split; [|split; [|split]]].
  - unfold CT_Tc.clear_content at 1. rewrite clear_content_tcPr.
    by unfold CT_Tc.clear_content.
  - apply Hwidth.
  - unfold CT_Tc.grid_span. by rewrite clear_content_tcPr.
  - unfold CT_Tc.vMerge. by rewrite clear_content_tcPr.
  - rewrite Hwidth. apply tc_set_width_width.
Qed.

(** X7.  The grid span of a cell is 1 when the cell has no Cell
    Properties and when these have no grid-span child; otherwise it is
    the integer whose decimal numeral is the value attribute of the
    first grid-span child, whatever else the Cell Properties hold. *)
Theorem grid_span_layers (tc : element) :
  (CT_Tc.tcPr tc = None → CT_Tc.grid_span tc = Ok 1%Z)
  ∧ (∀ tcPr, CT_Tc.tcPr tc = Some tcPr → CT_TcPr.gridSpan tcPr = None →
       CT_Tc.grid_span tc = Ok 1%Z)
  ∧ (∀ tcPr gridSpan n,
       CT_Tc.tcPr tc = Some tcPr → CT_TcPr.gridSpan tcPr = Some gridSpan →
       etree.get gridSpan "w:val" = Some (simpletypes.int_to_xml n) →
       CT_Tc.grid_span tc = Ok n).
Proof.
  unfold CT_Tc.grid_span, CT_TcPr.grid_span, CT_DecimalNumber.val,
    xmlchemy.RequiredAttribute_get.
  split; [|split].
  - by intros ->.
  - by intros tcPr -> ->.
  - intros tcPr gridSpan n -> -> ->. apply int_from_to_xml.
Qed.

Lemma grid_span_layers_witness :
  let gridSpan := Element 2 "w:gridSpan" (<["w:val" := "3"]> ∅) [] in
  let tcPr := Element 1 "w:tcPr" ∅ [Element 4 "w:tcW" ∅ []; gridSpan] in
  let tc := Element 0 "w:tc" ∅ [tcPr; Element 3 "w:p" ∅ []] in
  CT_Tc.grid_span tc = Ok 3%Z
  ∧ CT_Tc.grid_span (Element 0 "w:tc" ∅ [Element 1 "w:tcPr" ∅ []]) = Ok 1%Z.
Proof.
  intros gridSpan tcPr tc. split.
  - destruct (grid_span_layers tc) as (_ & _ & H).
    apply (H tcPr gridSpan 3%Z); reflexivity.
  - destruct (grid_span_layers (Element 0 "w:tc" ∅ [Element 1 "w:tcPr" ∅ []]))
      as (_ & H & _).
    apply (H (Element 1 "w:tcPr" ∅ [])); reflexivity.
Defined.

(** ** Positions among siblings *)

Lemma descendants_refl e : e ∈ etree.descendants e.
Proof. rewrite descendants_unfold. by left. Qed.

Lemma descendants_child doc p c :
  p ∈ etree.descendants doc → c ∈ children p → c ∈ etree.descendants doc.
Proof.
  revert p c. induction doc as [a t attrs cs IH] using element_tree_ind.
  intros p c Hp Hc. rewrite descendants_unfold in Hp |- *. simpl in *.
  right. apply flat_map_elem_of.
  apply elem_of_cons in Hp as [->|Hp].
  - exists c. split; [done | apply descendants_refl].
  - apply flat_map_elem_of in Hp as (d & Hd & Hp).
    exists d. split; [done|]. rewrite Forall_forall in IH. by eapply IH.
Qed.

(** In a tree of distinct objects the [i]-th child of a kind has its
    parent as [getparent()] and [i] as its index in the list of that
    kind. *)
Lemma child_index doc p c t i :
  NoDup (etree.addrs doc) → p ∈ etree.descendants doc →
  etree.findall p t !! i = Some c →
  etree.getparent doc (addr c) = Some p ∧ etree.index (etree.findall p t) c = Ok i.
Proof.
  intros Hnd Hp Hi.
  assert (c ∈ children p) as Hc.
  { apply list_elem_of_lookup_2 in Hi. by apply filter_elem_of in Hi as [? _]. }
  split; [by apply getparent_child|].
  unfold etree.index. rewrite (index_from_lookup _ 0 i); [done| |done].
  eapply sublist_NoDup; [|apply addr_filter_sublist].
  apply children_NoDup. by eapply descendants_NoDup.
Qed.

(** X8.  In a document of distinct objects the index of a grid column is
    its position among the grid columns of the grid of its table, and it
    is below the column count of that table; grid children of another
    kind are not counted. *)
Theorem gridCol_idx_is_rank (doc tbl tblGrid gridCol : element) (i : nat) :
  NoDup (etree.addrs doc) →
  tbl ∈ etree.descendants doc →
  CT_Tbl.tblGrid tbl = Ok tblGrid →
  CT_TblGrid.gridCol_lst tblGrid !! i = Some gridCol →
  CT_TblGridCol.gridCol_idx doc gridCol = Ok i
  ∧ ∃ n, CT_Tbl.col_count tbl = Ok n
         ∧ n = length (CT_TblGrid.gridCol_lst tblGrid) ∧ i < n.
Proof.
  intros Hnd Htbl Hgrid Hi.
  unfold CT_Tbl.tblGrid, xmlchemy.OneAndOnlyOne_get in Hgrid.
  destruct (etree.find tbl "w:tblGrid") as [g|] eqn:Hfind; [|done].
  injection Hgrid as ->.
  apply find_Some in Hfind as Hg. destruct Hg as (before & after & Hcs & Htag & _).
  assert (tblGrid ∈ etree.descendants doc) as Hin.
  { apply (descendants_child doc tbl); [done|].
    rewrite Hcs. apply elem_of_app. right. left. }
  destruct (child_index doc tblGrid gridCol "w:gridCol" i Hnd Hin Hi) as [Hparent Hidx].
  split.
  - unfold CT_TblGridCol.gridCol_idx. by rewrite Hparent, Htag.
  - exists (length (CT_TblGrid.gridCol_lst tblGrid)). split; [|split; [done|]].
    + unfold CT_Tbl.col_count, CT_Tbl.tblGrid, xmlchemy.OneAndOnlyOne_get.
      by rewrite Hfind.
    + by eapply lookup_lt_Some.
Qed.

Lemma gridCol_idx_is_rank_witness :
  let col a := Element a "w:gridCol" ∅ [] in
  let tblGrid := Element 3 "w:tblGrid" ∅
                   [col 4; col 5; col 6; Element 7 "w:tblGridChange" ∅ []] in
  let tbl := Element 1 "w:tbl" ∅ [Element 2 "w:tblPr" ∅ []; tblGrid] in
  let doc := Element 0 "w:body" ∅ [tbl] in
  CT_TblGridCol.gridCol_idx doc (col 6) = Ok 2
  ∧ CT_Tbl.col_count tbl = Ok 3.
Proof.
  intros col tblGrid tbl doc.
  assert (NoDup (etree.addrs doc)) as Hnd.
  { apply (bool_decide_unpack _). vm_compute. exact I. }
  assert (tbl ∈ etree.descendants doc) as Htbl.
  { simpl. right. left. }
  destruct (gridCol_idx_is_rank doc tbl tblGrid (col 6) 2 Hnd Htbl eq_refl eq_refl)
    as [Hidx _].
  split; [exact Hidx | reflexivity].
Defined.

Lemma index_from_Ok (l : list element) (n m a : nat) :
  etree.index_from n a l = Ok m →
  ∃ i r, m = n + i ∧ l !! i = Some r ∧ addr r = a
         ∧ ∀ j r', j < i → l !! j = Some r' → addr r' ≠ a.
Proof.
  revert n. induction l as [|c l IH]; intros n; simpl; [done|].
  destruct (Nat.eqb_spec (addr c) a) as [Heq|Hne].
  - intros [= <-]. exists 0, c. repeat split; auto with lia.
  - intros (i & r & -> & Hi & Hr & Hbefore)%IH.
    exists (S i), r. repeat split; auto with lia.
    intros [|j] r' Hj; simpl; [by intros [= <-]|].
    apply Hbefore. lia.
Qed.

(** X9.  When the row index of an element is [i], the element has a
    parent in the document, the parent is a table, and row [i] of that
    table is this very object, which is no earlier row of it. *)
Theorem tr_idx_sound (doc tr : element) (i : nat) :
  CT_Row.tr_idx doc tr = Ok i →
  ∃ tbl r,
    etree.getparent doc (addr tr) = Some tbl
    ∧ tag tbl = "w:tbl"
    ∧ CT_Tbl.tr_lst tbl !! i = Some r
    ∧ addr r = addr tr
    ∧ ∀ j r', j < i → CT_Tbl.tr_lst tbl !! j = Some r' → addr r' ≠ addr tr.
Proof.
  unfold CT_Row.tr_idx.
  destruct (etree.getparent doc (addr tr)) as [tbl|]; [|done].
  destruct (String.eqb_spec (tag tbl) "w:tbl") as [Htag|]; [|done].
  intros (k & r & -> & Hk & Hr & Hbefore)%index_from_Ok.
  exists tbl, r. repeat split; auto.
Qed.

Lemma tr_idx_sound_witness :
  let r0 := Element 3 "w:tr" ∅ [] in
  let r1 := Element 4 "w:tr" ∅ [] in
  let tbl := Element 1 "w:tbl" ∅ [Element 2 "w:tblGrid" ∅ []; r0; r1] in
  let doc := Element 0 "w:body" ∅ [tbl] in
  ∃ parent r,
    etree.getparent doc (addr r1) = Some parent
    ∧ tag parent = "w:tbl"
    ∧ CT_Tbl.tr_lst parent !! 1 = Some r
    ∧ addr r = addr r1
    ∧ ∀ j r', j < 1 → CT_Tbl.tr_lst parent !! j = Some r' → addr r' ≠ addr r1.
Proof.
  intros r0 r1 tbl doc. apply (tr_idx_sound doc r1 1). reflexivity.
Defined.



(** ** Cell iteration over rows of any length *)

Lemma to_list_short tc_lst fuel g :
  (fuel ≤ length (remaining tc_lst g))%nat →
  generator.to_list tc_lst fuel g = None.
Proof.
  revert g. induction fuel as [|fuel IH]; intros g Hlen; [done|]. simpl.
  pose proof (next_remaining tc_lst g) as Hnext.
  destruct (generator.next tc_lst g) as [[tc g']|].
  - rewrite Hnext in Hlen. simpl in Hlen. rewrite IH by lia. done.
  - rewrite Hnext in Hlen. simpl in Hlen. lia.
Qed.

Lemma length_bind_sum {A B : Type} (f : A → list B) (l : list A) :
  length (l ≫= f) = sum_list (length ∘ f <$> l).
Proof.
  induction l as [|x l IH]; [done|].
  rewrite bind_cons, length_app, IH. done.
Qed.

Lemma bind_nil_Forall {A B : Type} (f : A → list B) (l : list A) :
  l ≫= f = [] ↔ Forall (λ x, f x = []) l.
Proof.
  induction l as [|x l IH]; [by split; [constructor|]|].
  rewrite bind_cons, Forall_cons, <- IH. split.
  - by intros [-> ->]%app_eq_nil.
  - by intros [-> ->].
Qed.

(** X11.  For a table whose rows have any numbers of cells, rows without
    cells and a table without rows included, the generator of [iter_tcs]
    yields the cells of the rows one row after the other, as many as the
    rows hold together, and [list()] needs one [next()] call more than
    that.  The first [next()] is [StopIteration] exactly when no row has
    a cell.  Only elements tagged w:tc that are children of w:tr
    children of the table itself are yielded. *)
Theorem iter_tcs_any_rows (tbl : element) :
  (∀ fuel, CT_Tbl.to_list fuel (CT_Tbl.iter_tcs tbl)
           = if decide (length (CT_Tbl.tr_lst tbl ≫= CT_Row.tc_lst) < fuel)
             then Some (CT_Tbl.tr_lst tbl ≫= CT_Row.tc_lst) else None)
  ∧ length (CT_Tbl.tr_lst tbl ≫= CT_Row.tc_lst)
    = sum_list (length ∘ CT_Row.tc_lst <$> CT_Tbl.tr_lst tbl)
  ∧ (CT_Tbl.next (CT_Tbl.iter_tcs tbl) = None
     ↔ Forall (λ tr, CT_Row.tc_lst tr = []) (CT_Tbl.tr_lst tbl))
  ∧ Forall (λ tc, tag tc = "w:tc"
                  ∧ ∃ tr, tr ∈ children tbl ∧ tag tr = "w:tr" ∧ tc ∈ children tr)
      (CT_Tbl.tr_lst tbl ≫= CT_Row.tc_lst).
Proof.
  split; [|split; [|split]].
  - intros fuel. unfold CT_Tbl.to_list. case_decide as Hfuel.
    + by rewrite to_list_remaining.
    + apply to_list_short. unfold remaining. simpl. lia.
  - apply length_bind_sum.
  - rewrite <- bind_nil_Forall. unfold CT_Tbl.next.
    pose proof (next_remaining CT_Row.tc_lst (CT_Tbl.iter_tcs tbl)) as Hnext.
    unfold remaining in Hnext. simpl in Hnext.
    destruct (generator.next CT_Row.tc_lst (CT_Tbl.iter_tcs tbl)) as [[tc g']|].
    + rewrite Hnext. split; discriminate.
    + done.
  - apply Forall_forall. intros tc (tr & Htc & Htr)%list_elem_of_bind.
    apply filter_elem_of in Htc as [Htc Htag].
    apply filter_elem_of in Htr as [Htr Htag'].
    apply String.eqb_eq in Htag, Htag'. eauto.
Qed.
